(** * scan_junk_mail.py: a shallow embedding

    The development follows [src/scan_junk_mail.py]:

    - [Extractor]: [extract_email_addresses], i.e. [re.findall] with the
      pattern of line 25, as a backtracking matcher;
    - [Engine]: [save_progress] and the loop of [scan_junk_mail] (lines
      54-124) over an explicit state (the heap holding the caller's
      [email_count] object, the [new_emails] set, [processed], [retries],
      the files and a trace of the sleeps and saves), driven by the outcome
      of each page request;
    - [Program]: [main] over the three files it touches.

    Text is ASCII: [\b], [\w] and [str.lower] are modelled on the characters
    0-127 (a character above 127 is neither a word character nor changed by
    [lower]).  Counts are [Z] (Python integers), [processed], [retries] and
    [batch_size] are [nat].

    Outside the model: the connection (lines 30-52, whose errors leave
    [main] before the loop starts), printing, the wall-clock [timestamp] of
    a checkpoint, and failures of the file writes themselves.  The time
    that names an export (line 191) is an input of [main].  The folder
    is a fixed list, newest first: the server answers every slice from the
    same list. *)

From Stdlib Require Import ZArith Ascii String List Lia Bool.
From Stdlib Require Import Sorted Permutation.
From stdpp Require Import base option list gmap strings.

Open Scope Z_scope.

(* ===================================================================== *)
(** ** [extract_email_addresses] (lines 19-26) *)
(* ===================================================================== *)

Module Extractor.

Definition code (c : ascii) : nat := nat_of_ascii c.

Definition between (lo hi : nat) (c : ascii) : bool :=
  (Nat.leb lo (code c)) && (Nat.leb (code c) hi).

Definition is_upper : ascii -> bool := between 65 90.     (* A-Z *)
Definition is_lower : ascii -> bool := between 97 122.    (* a-z *)
Definition is_digit : ascii -> bool := between 48 57.     (* 0-9 *)
Definition is_alpha (c : ascii) : bool := is_upper c || is_lower c.

Definition one_of (s : string) (c : ascii) : bool :=
  existsb (Ascii.eqb c) (list_ascii_of_string s).

(** [\w] on ASCII text: letters, digits and the underscore. *)
Definition is_word (c : ascii) : bool :=
  is_alpha c || is_digit c || one_of "_" c.

(** The three character classes of the pattern, as written there. *)
Definition local_class (c : ascii) : bool :=        (* [A-Za-z0-9._%+-] *)
  is_alpha c || is_digit c || one_of "._%+-" c.
Definition domain_class (c : ascii) : bool :=       (* [A-Za-z0-9.-] *)
  is_alpha c || is_digit c || one_of ".-" c.
Definition tld_class (c : ascii) : bool :=          (* [A-Z|a-z] *)
  is_upper c || one_of "|" c || is_lower c.

(** The pieces a pattern of this kind is made of. *)
Inductive piece :=
| Boundary                                   (* \b *)
| Lit (c : ascii)                            (* a literal character *)
| Rep (cls : ascii -> bool) (least : nat).   (* [cls]{least,}, greedy *)

(** [r'\b[A-Za-z0-9._%+-]+@[A-Za-z0-9.-]+\.[A-Z|a-z]{2,}\b'] *)
Definition email_pattern : list piece :=
  [ Boundary; Rep local_class 1; Lit "@"; Rep domain_class 1; Lit ".";
    Rep tld_class 2; Boundary ]%char.

(** [\b] holds between two positions exactly one of which is a word
    character; the outside of the text counts as a non-word character. *)
Definition word_at (c : option ascii) : bool :=
  match c with Some x => is_word x | None => false end.
Definition at_boundary (prev : option ascii) (s : list ascii) : bool :=
  xorb (word_at prev) (word_at (head s)).

(** A greedy repetition: take one more character of the class when that
    leads to a match of the rest ([k]), else stop here if [least] were
    taken. *)
Fixpoint match_rep (cls : ascii -> bool) (least : nat)
    (k : option ascii -> list ascii -> option (list ascii))
    (prev : option ascii) (s : list ascii) : option (list ascii) :=
  let stop := match least with O => k prev s | S _ => None end in
  match s with
  | x :: s' =>
      if cls x then
        match match_rep cls (Nat.pred least) k (Some x) s' with
        | Some m => Some (x :: m)
        | None => stop
        end
      else stop
  | [] => stop
  end.

(** The text matched by the pattern [p] at the start of [s], [prev] being
    the character before it: the first match in backtracking order. *)
Fixpoint match_here (p : list piece) (prev : option ascii) (s : list ascii)
    : option (list ascii) :=
  match p with
  | [] => Some []
  | Boundary :: p' =>
      if at_boundary prev s then match_here p' prev s else None
  | Lit c :: p' =>
      match s with
      | x :: s' =>
          if Ascii.eqb x c
          then option_map (cons x) (match_here p' (Some x) s')
          else None
      | [] => None
      end
  | Rep cls least :: p' => match_rep cls least (match_here p') prev s
  end.

(** [re.findall]: scan left to right; after a match, go on behind it
    ([skip] counts the characters of the match still to be passed). *)
Fixpoint scan (p : list piece) (prev : option ascii) (s : list ascii)
    (skip : nat) : list (list ascii) :=
  match s with
  | [] => []
  | c :: s' =>
      match skip with
      | S n => scan p (Some c) s' n
      | O =>
          match match_here p prev s with
          | Some m => m :: scan p (Some c) s' (Nat.pred (length m))
          | None => scan p (Some c) s' O
          end
      end
  end.

Definition findall (p : list piece) (text : string) : list string :=
  map string_of_list_ascii (scan p None (list_ascii_of_string text) O).

(** [text] is [None] for Python's [None]; [not text] holds for [None] and
    for the empty string. *)
Definition extract_email_addresses (text : option string) : list string :=
  match text with
  | None => []
  | Some EmptyString => []
  | Some t => findall email_pattern t
  end.

End Extractor.

(* ===================================================================== *)
(** ** The scan loop of [scan_junk_mail] (lines 54-124) *)
(* ===================================================================== *)

Module Engine.

(** [str.lower] on ASCII text. *)
Definition lower_char (c : ascii) : ascii :=
  if Extractor.is_upper c then ascii_of_nat (Extractor.code c + 32) else c.

Fixpoint lower (s : string) : string :=
  match s with
  | EmptyString => EmptyString
  | String c s' => String (lower_char c) (lower s')
  end.

(** What the body of the inner [try] (lines 82-89) can see of an item:
    - [NoSender]: no [sender] attribute, or a falsy one (an exception
      object returned in place of an item has none);
    - [Sender a]: a sender whose [email_address] is [a] ([None] or a
      string, possibly empty);
    - [Raising]: an item on which lines 82-85 raise before the count is
      touched (the case the handler of lines 91-93 is there for). *)
Inductive item :=
| NoSender
| Sender (email_address : option string)
| Raising.

(** Python objects live in a heap; [email_count] is a reference into it. *)
Definition loc := positive.

Record checkpoint := Checkpoint {
  cp_email_count : gmap string Z;     (* 'email_count' *)
  cp_processed : nat                  (* 'processed' *)
}.                                    (* 'timestamp' is written, never read *)

(** The files of the working directory. *)
Record files := Files {
  progress_file : option checkpoint;        (* junk_email_addresses_progress.json *)
  results_file : option (gmap string Z);    (* junk_email_addresses.json *)
  new_emails_files : gmap string (gset string)
                                            (* new_emails_<timestamp>.json, by timestamp *)
}.

Inductive event :=
| Slept (seconds : nat)
| Saved (cp : checkpoint).

Record state := State {
  heap : gmap loc (gmap string Z);
  new_emails : gset string;
  processed : nat;
  retries : nat;
  disk : files;
  trace : list event                  (* oldest first *)
}.

Definition deref (h : gmap loc (gmap string Z)) (l : loc) : gmap string Z :=
  default ∅ (h !! l).

(** The object [email_count] refers to, in state [st]. *)
Definition counts (email_count : loc) (st : state) : gmap string Z :=
  deref (heap st) email_count.

(** [d[k]] on a [defaultdict(int)]. *)
Definition get (m : gmap string Z) (k : string) : Z := default 0 (m !! k).

(** Lines 85-87: [email_count[k] += 1] updates the object in place, then
    [k] joins [new_emails] when its count has become 1. *)
Definition count_sender (email_count : loc) (k : string) (st : state) : state :=
  let m := counts email_count st in
  let n := get m k + 1 in
  State (<[email_count := <[k := n]> m]> (heap st))
        (if Z.eqb n 1 then {[k]} ∪ new_emails st else new_emails st)
        (processed st) (retries st) (disk st) (trace st).

Definition advance (st : state) : state :=
  State (heap st) (new_emails st) (S (processed st)) (retries st)
        (disk st) (trace st).

(** Lines 80-93, one turn of the [for] loop. *)
Definition process_item (email_count : loc) (st : state) (it : item) : state :=
  match it with
  | NoSender => advance st
  | Sender None => advance st
  | Sender (Some EmptyString) => advance st
  | Sender (Some sender_email) =>
      advance (count_sender email_count (lower sender_email) st)
  | Raising => st                      (* except: print, continue *)
  end.

(** [save_progress] (lines 127-136): [dict(email_count)] is a copy. *)
Definition save_progress (email_count : loc) (st : state) : state :=
  let cp := Checkpoint (counts email_count st) (processed st) in
  State (heap st) (new_emails st) (processed st) (retries st)
        (Files (Some cp) (results_file (disk st)) (new_emails_files (disk st)))
        (trace st ++ [Saved cp]).

Definition sleep (seconds : nat) (st : state) : state :=
  State (heap st) (new_emails st) (processed st) (retries st) (disk st)
        (trace st ++ [Slept seconds]).

Definition set_retries (n : nat) (st : state) : state :=
  State (heap st) (new_emails st) (processed st) n (disk st) (trace st).

(** The outcome of the request of lines 71-73. *)
Inductive response :=
| Page          (* the slice [processed:processed+batch_size] is returned *)
| ServerBusy    (* ErrorServerBusy *)
| Failure.      (* any other exception *)

Definition max_retries : nat := 5.

(** [folder[start:start+len]], the folder being listed newest first. *)
Definition slice (folder : list item) (start len : nat) : list item :=
  take len (drop start folder).

(** One turn of [while True] (lines 67-121); the boolean tells whether
    the loop goes on. *)
Definition iteration (folder : list item) (email_count : loc)
    (batch_size : nat) (r : response) (st : state) : state * bool :=
  match r with
  | Page =>
      match slice folder (processed st) batch_size with
      | [] => (st, false)
      | items =>
          let st1 := foldl (process_item email_count) st items in
          let st2 :=
            if Nat.eqb (Nat.modulo (processed st1) (batch_size * 2)) 0
            then save_progress email_count st1 else st1 in
          (set_retries 0 (sleep 1 st2), true)
      end
  | ServerBusy =>
      let st1 := set_retries (S (retries st)) st in
      if Nat.ltb max_retries (retries st1)
      then (save_progress email_count st1, false)
      else (sleep (10 * retries st1) st1, true)
  | Failure => (save_progress email_count st, false)
  end.

Inductive status := InLoop | Returned.

(** The loop, run on the outcomes [rs] of its successive requests.  It
    is [InLoop] when [rs] ends before the loop does. *)
Fixpoint scan_loop (folder : list item) (email_count : loc)
    (batch_size : nat) (rs : list response) (st : state) : state * status :=
  match rs with
  | [] => (st, InLoop)
  | r :: rs' =>
      let '(st', go) := iteration folder email_count batch_size r st in
      if go then scan_loop folder email_count batch_size rs' st'
      else (st', Returned)
  end.

(** Lines 54-57. *)
Definition start (h : gmap loc (gmap string Z)) (d : files) : state :=
  State h ∅ 0 0 d [].

(** [scan_junk_mail]: the final state, and whether line 124 was reached.
    It returns [(email_count, new_emails)]: the reference it was given. *)
Definition scan_junk_mail (folder : list item)
    (h : gmap loc (gmap string Z)) (d : files)
    (email_count : loc) (batch_size : nat) (rs : list response)
    : state * status :=
  scan_loop folder email_count batch_size rs (start h d).

Definition returned (email_count : loc) (st : state) : loc * gset string :=
  (email_count, new_emails st).

End Engine.

(* ===================================================================== *)
(** ** [main] (lines 139-205) *)
(* ===================================================================== *)

Module Program.
Import Engine.

Inductive outcome :=
| Exited (d : files)                 (* main ran to its last line *)
| FileNotFoundError (d : files)      (* raised by [open], unhandled *)
| Scanning (d : files).              (* still in the scan loop *)

(** The reference of the [defaultdict] built at line 162 or 166. *)
Definition fresh : loc := 1%positive.

(** Lines 172-205, after the scan has returned in state [st];
    [timestamp] is [datetime.now().strftime("%Y%m%d_%H%M%S")] at line 191.
    The export is opened with ['w'] under a name made of the timestamp: it
    replaces an export of the same second. *)
Definition finish (timestamp : string) (email_count : loc) (st : state)
    : files :=
  let exports :=
    if decide (new_emails st = ∅) then new_emails_files (disk st)
    else <[timestamp := new_emails st]> (new_emails_files (disk st)) in
  (* lines 197-199 write the results, lines 203-204 remove the progress file *)
  Files None (Some (counts email_count st)) exports.

Definition main (timestamp : string) (d : files) (folder : list item)
    (rs : list response) : outcome :=
  let baseline :=
    match progress_file d with
    | Some progress => Some (cp_email_count progress)
    | None => results_file d
    end in
  match baseline with
  | None => FileNotFoundError d
  | Some m =>
      let '(st, s) :=
        scan_junk_mail folder {[fresh := m]} d fresh 100 rs in
      match s with
      | InLoop => Scanning (disk st)
      | Returned => Exited (finish timestamp fresh st)
      end
  end.

End Program.

(* ===================================================================== *)
(** ** The lists [main] prints and exports (lines 176-195) *)
(* ===================================================================== *)

Module Report.

(** [sorted], which is stable, as an insertion sort: [x] goes in front of
    the first element it may precede, so that it stays in front of the
    elements of equal rank that followed it. *)
Fixpoint insert_by {A} (le : A -> A -> bool) (x : A) (l : list A) : list A :=
  match l with
  | [] => [x]
  | y :: l' => if le x y then x :: l else y :: insert_by le x l'
  end.

Fixpoint sort_by {A} (le : A -> A -> bool) (l : list A) : list A :=
  match l with
  | [] => []
  | x :: l' => insert_by le x (sort_by le l')
  end.

(** [key=lambda x: x[1], reverse=True]: the higher count first. *)
Definition more_frequent (a b : string * Z) : bool := Z.leb (snd b) (snd a).

(** Line 177: [sorted(email_count.items(), key=lambda x: x[1],
    reverse=True)], [items] being [email_count.items()] in the order of
    the dictionary. *)
Definition sorted_emails (items : list (string * Z)) : list (string * Z) :=
  sort_by more_frequent items.

(** Line 194: [sorted(list(new_emails))], the content of the export;
    strings compare character by character, by code. *)
Definition export_content (new_emails : gset string) : list string :=
  sort_by String.leb (elements new_emails).

End Report.

(* ===================================================================== *)
(** ** What the specification says, in the terms of the model *)
(* ===================================================================== *)

Module Spec.
Import Extractor Engine.

(** The shape [local-part@domain.tld]: a local part of one or more
    characters of [local_class], a domain of one or more characters of
    [domain_class], and a final label of two or more characters of
    [final]. *)
Definition shaped (final : ascii -> bool) (m : string) : Prop :=
  exists l d t : list ascii,
    list_ascii_of_string m = l ++ "@"%char :: d ++ "."%char :: t
    /\ (1 <= length l)%nat /\ forallb local_class l = true
    /\ (1 <= length d)%nat /\ forallb domain_class d = true
    /\ (2 <= length t)%nat /\ forallb final t = true.

(** The shape of section 4.1: the final label is alphabetic. *)
Definition address_shaped : string -> Prop := shaped is_alpha.

(** The accumulation step in the words of section 4.4: run the extractor
    on the sender field, lowercase the first extracted address, count it;
    the cursor advances either way. *)
Definition extracted_key (it : item) : option string :=
  match it with
  | Sender a => lower <$> head (extract_email_addresses a)
  | _ => None
  end.

Definition spec_process_item (email_count : loc) (st : state) (it : item)
    : state :=
  match extracted_key it with
  | Some k => advance (count_sender email_count k st)
  | None => advance st
  end.

(** The key an item is counted under by lines 82-85, if any. *)
Definition counted_key (it : item) : option string :=
  match it with
  | Sender (Some (String c s)) => Some (lower (String c s))
  | _ => None
  end.

(** How many items of [items] are counted under [k]. *)
Definition occurrences (k : string) (items : list item) : nat :=
  length (filter (fun it => counted_key it = Some k) items).

(** No item of the list makes lines 82-85 raise. *)
Definition no_raising : list item -> Prop :=
  Forall (fun it => it <> Raising).

(** No key is lost and no count goes down from [m] to [m']. *)
Definition grows (m m' : gmap string Z) : Prop :=
  forall k v, m !! k = Some v -> exists v', m' !! k = Some v' /\ v <= v'.

(** What holds of [new_emails] in a run started on the counts [c0]: no
    count is below its start, and a key of [new_emails] has been counted
    and had no positive count at the start. *)
Definition new_since (c0 : gmap string Z) (l : loc) (st : state) : Prop :=
  (forall k, get c0 k <= get (counts l st) k)
  /\ (forall k, k ∈ new_emails st ->
                1 <= get (counts l st) k /\ get c0 k <= 0).

(** The checkpoints written, oldest first. *)
Definition saves (tr : list event) : list checkpoint :=
  omap (fun e => match e with Saved cp => Some cp | Slept _ => None end) tr.

(** The retry policy gives up after [n] consecutive busy answers: from
    any state with no failed attempt pending, the loop has returned. *)
Definition gives_up_after (n : nat) : Prop :=
  forall folder email_count batch_size st,
    retries st = 0%nat ->
    snd (scan_loop folder email_count batch_size (repeat ServerBusy n) st)
    = Returned.

End Spec.

(* ===================================================================== *)
(** ** Fixtures *)
(* ===================================================================== *)

Module Fixtures.
Import Engine.
Local Open Scope string_scope.

(** A working directory holding an empty results file and nothing else. *)
Definition first_run : files := Files None (Some ∅) ∅.

(** Two readings of the clock, as line 191 formats them. *)
Definition noon : string := "20260101_120000".
Definition evening : string := "20260101_180000".

(** A working directory with a history: counts of earlier runs and two
    exports, one of them written at [noon]. *)
Definition later_run : files :=
  Files None
        (Some {["old@x.co" := 3; "news@shop.example" := 0]})
        {["20251231_090000" := {["old@x.co"]}; noon := {["gone@x.co"]}]}.

(** A caller holding an empty [defaultdict(int)] under the reference
    [caller]. *)
Definition caller : loc := 1%positive.
Definition caller_heap : gmap loc (gmap string Z) := {[caller := ∅]}.

(** The same caller, holding a mapping with a count of 7. *)
Definition counted_heap : gmap loc (gmap string Z) :=
  {[caller := {["news@shop.example" := 7]}]}.

(** A junk folder of [n] messages of one sender. *)
Definition junk (n : nat) : list item :=
  repeat (Sender (Some "News@Shop.example")) n.

(** A folder whose second message makes lines 82-85 raise. *)
Definition with_raising : list item :=
  [Sender (Some "a@x.co"); Raising; Sender (Some "b@x.co")].

(** A sender whose address field carries its address-type prefix. *)
Definition prefixed : item := Sender (Some "SMTP:Joe@Example.com").

(** The state [n] busy answers later when none of them exhausts the
    retries: only [retries] and the waits have changed. *)
Definition busy_state (n : nat) (st : state) : state :=
  State (heap st) (new_emails st) (processed st) (retries st + n)
        (disk st)
        (trace st ++ map (fun i => Slept (10 * i)) (seq (S (retries st)) n)).

End Fixtures.

(* ===================================================================== *)
(** ** What a run keeps true *)
(* ===================================================================== *)

Module Invariants.
Import Extractor Engine Spec.

(** A checkpoint agrees with the folder when its counts are the counts
    [c0] the run started from with the first [cp_processed] items of the
    folder counted once each. *)
Definition consistent (c0 : gmap string Z) (folder : list item)
    (cp : checkpoint) : Prop :=
  (cp_processed cp <= length folder)%nat
  /\ forall k, get (cp_email_count cp) k
               = get c0 k
                 + Z.of_nat (occurrences k (take (cp_processed cp) folder)).

(** The progress file once the events [tr] have happened: the last
    checkpoint written, or what was there before if none was. *)
Definition progress_after (before : option checkpoint) (tr : list event)
    : option checkpoint :=
  match last (saves tr) with
  | Some cp => Some cp
  | None => before
  end.

(** What holds at every point of a run started on the counts [c0] and the
    progress file [p0], over a folder none of whose items raises: the
    cursor is within the folder, the counts are [c0] with the items before
    the cursor counted once each, every checkpoint written agrees with the
    folder, and the progress file holds the last of them. *)
Definition run_consistent (c0 : gmap string Z) (p0 : option checkpoint)
    (folder : list item) (l : loc) (st : state) : Prop :=
  (processed st <= length folder)%nat
  /\ (forall k, get (counts l st) k
                = get c0 k
                  + Z.of_nat (occurrences k (take (processed st) folder)))
  /\ Forall (consistent c0 folder) (saves (trace st))
  /\ progress_file (disk st) = progress_after p0 (trace st).

(** [new_emails] holds exactly the keys that had no positive count in
    [c0] and have one now; no count is below [c0]. *)
Definition new_exactly (c0 : gmap string Z) (l : loc) (st : state) : Prop :=
  (forall k, get c0 k <= get (counts l st) k)
  /\ (forall k, k ∈ new_emails st
                <-> get c0 k <= 0 /\ 1 <= get (counts l st) k).

(** The counts [main] starts from (lines 158-167): those of the progress
    file if there is one, else those of the results file. *)
Definition baseline (d : files) : option (gmap string Z) :=
  match progress_file d with
  | Some progress => Some (cp_email_count progress)
  | None => results_file d
  end.

(** The characters of the text given to the extractor. *)
Definition chars (text : option string) : list ascii :=
  match text with
  | Some t => list_ascii_of_string t
  | None => []
  end.

(** The strings [ms] occur in [s] one after the other, in this order and
    without overlap. *)
Fixpoint in_order (ms : list (list ascii)) (s : list ascii) : Prop :=
  match ms with
  | [] => True
  | m :: ms' =>
      exists gap rest : list ascii,
        s = (gap ++ m ++ rest)%list /\ in_order ms' rest
  end.

(** The last character of [a], or [prev] when [a] is empty. *)
Definition last_or (prev : option ascii) (a : list ascii) : option ascii :=
  match last a with
  | Some x => Some x
  | None => prev
  end.

(** The items a run has fetched on the answers [rs], page after page:
    the [items] of line 71, in the order in which the loop of line 79 goes
    through them (an item fetched twice is there twice). *)
Fixpoint fetched (folder : list item) (l : loc) (batch_size : nat)
    (rs : list response) (st : state) : list item :=
  match rs with
  | [] => []
  | r :: rs' =>
      let '(st', go) := iteration folder l batch_size r st in
      (match r with
       | Page => slice folder (processed st) batch_size
       | _ => []
       end)
      ++ (if go then fetched folder l batch_size rs' st' else [])
  end.

(** A request that brought no page. *)
Definition failed (r : response) : Prop := r <> Page.

(** The seconds slept, in all. *)
Definition slept (tr : list event) : nat :=
  foldr (fun e n => match e with Slept s => (s + n)%nat | Saved _ => n end)
        0%nat tr.

End Invariants.

(* ===================================================================== *)
(** ** The extractor *)
(* ===================================================================== *)

Section ExtractorFacts.
Import Extractor Spec.
Open Scope string_scope.

Example extract_plain :
  extract_email_addresses (Some "Joe <joe@x.org>, amy@y.net")
  = ["joe@x.org"; "amy@y.net"].
Proof. reflexivity. Qed.

Example extract_backtracks :
  extract_email_addresses (Some "a.b@c.d.ef.g") = ["a.b@c.d.ef"].
Proof. reflexivity. Qed.

Example extract_short_tld : extract_email_addresses (Some "a@b.c") = [].
Proof. reflexivity. Qed.

Example extract_boundary :
  extract_email_addresses (Some "%a@b.cd") = ["a@b.cd"]
  /\ extract_email_addresses (Some "a@b.cd_") = []
  /\ extract_email_addresses (Some "x@y.com|") = ["x@y.com"].
Proof. repeat split; reflexivity. Qed.

Example extract_nothing :
  extract_email_addresses None = [] /\ extract_email_addresses (Some "") = [].
Proof. split; reflexivity. Qed.

(** A successful repetition took at least [least] characters of the
    class and handed the rest to its continuation. *)
Lemma match_rep_inv cls k s :
  forall least prev m,
    match_rep cls least k prev s = Some m ->
    exists (a b : list ascii) prev' s',
      m = (a ++ b)%list /\ (least <= length a)%nat /\ forallb cls a = true
      /\ k prev' s' = Some b.
Proof.
  induction s as [|x s IH]; intros least prev m H; simpl in H.
  - destruct least; [|discriminate].
    exists [], m, prev, []. repeat split; auto.
  - assert (Hstop : match least with O => k prev (x :: s) | S _ => None end
                    = Some m ->
                    exists (a b : list ascii) prev' s',
                      m = (a ++ b)%list /\ (least <= length a)%nat
                      /\ forallb cls a = true /\ k prev' s' = Some b).
    { destruct least; [|discriminate]. intros Hk.
      exists [], m, prev, (x :: s). repeat split; auto. }
    destruct (cls x) eqn:Hx; [|auto].
    destruct (match_rep cls (Nat.pred least) k (Some x) s) as [m'|] eqn:Hm;
      [|auto].
    injection H as <-.
    destruct (IH _ _ _ Hm) as (a & b & prev' & s' & -> & Hlen & Hall & Hk).
    exists (x :: a), b, prev', s'. repeat split; auto.
    + simpl. lia.
    + simpl. now rewrite Hx, Hall.
Qed.

Lemma match_lit_inv c p prev s m :
  match_here (Lit c :: p) prev s = Some m ->
  exists (b : list ascii) prev' s',
    m = c :: b /\ match_here p prev' s' = Some b.
Proof.
  simpl. destruct s as [|x s]; [discriminate|].
  destruct (Ascii.eqb x c) eqn:E; [|discriminate].
  apply Ascii.eqb_eq in E as ->.
  destruct (match_here p (Some c) s) as [b|] eqn:Hb; [|discriminate].
  simpl. intros [= <-]. eauto.
Qed.

(** Whatever the pattern matches has the three parts it asks for. *)
Lemma match_email_shape prev s m :
  match_here email_pattern prev s = Some m ->
  shaped tld_class (string_of_list_ascii m).
Proof.
  unfold email_pattern. intros H.
  change (match_here (Boundary :: ?p) prev s)
    with (if at_boundary prev s then match_here p prev s else None) in H.
  destruct (at_boundary prev s); [|discriminate].
  change (match_here (Rep ?c ?n :: ?p) prev s)
    with (match_rep c n (match_here p) prev s) in H.
  apply match_rep_inv in H as (l & b & p1 & s1 & -> & Hl & Hlc & H).
  apply match_lit_inv in H as (b1 & p2 & s2 & -> & H).
  change (match_here (Rep ?c ?n :: ?p) p2 s2)
    with (match_rep c n (match_here p) p2 s2) in H.
  apply match_rep_inv in H as (d & b2 & p3 & s3 & -> & Hd & Hdc & H).
  apply match_lit_inv in H as (b3 & p4 & s4 & -> & H).
  change (match_here (Rep ?c ?n :: ?p) p4 s4)
    with (match_rep c n (match_here p) p4 s4) in H.
  apply match_rep_inv in H as (t & b4 & p5 & s5 & -> & Ht & Htc & H).
  simpl in H. destruct (at_boundary p5 s5); [|discriminate].
  injection H as <-.
  exists l, d, t. rewrite list_ascii_of_string_of_list_ascii, app_nil_r.
  repeat split; auto.
Qed.

(** Every match [scan] reports is a match of the pattern somewhere. *)
Lemma scan_matches p s :
  forall prev skip m,
    In m (scan p prev s skip) ->
    exists prev' s', match_here p prev' s' = Some m.
Proof.
  induction s as [|c s IH]; intros prev skip m H; simpl in H; [easy|].
  destruct skip as [|n]; [|eauto].
  destruct (match_here p prev (c :: s)) as [m'|] eqn:Hm; [|eauto].
  destruct H as [<-|H]; eauto.
Qed.

(** What the extractor guarantees for every input text: each string it
    returns is a local part, [@], a domain, a dot and a final label of two
    or more characters of [[A-Z|a-z]] (letters or the vertical bar). *)
Theorem extract_shape (text : option string) (m : string) :
  In m (extract_email_addresses text) -> shaped tld_class m.
Proof.
  destruct text as [[|c t]|]; simpl; try easy.
  unfold findall. rewrite in_map_iff. intros (m' & <- & H).
  apply scan_matches in H as (prev & s & H).
  eapply match_email_shape; eauto.
Qed.

Lemma extract_shape_witness :
  In "joe@x.org" (extract_email_addresses (Some "Joe <joe@x.org>"))
  /\ shaped tld_class "joe@x.org".
Proof.
  split; [left; reflexivity|].
  apply (extract_shape (Some "Joe <joe@x.org>")). left; reflexivity.
Defined.

(** A final label holding a vertical bar is not alphabetic. *)
Lemma bar_label_not_address : ~ address_shaped "joe@example.com|x".
Proof.
  intros (l & d & t & E & _ & _ & _ & _ & Ht & Ha).
  apply (f_equal (@rev ascii)) in E.
  rewrite rev_app_distr in E. simpl in E.
  rewrite rev_app_distr in E. simpl in E.
  rewrite <- !app_assoc in E.
  assert (Hr : forallb is_alpha (rev t) = true).
  { rewrite forallb_forall in *. intros x Hx. apply Ha, in_rev, Hx. }
  rewrite <- length_rev in Ht.
  destruct (rev t) as [|a [|b r]]; simpl in Ht; try lia.
  simpl in E. inversion E as [[Ea Eb Er]]. subst a b.
  simpl in Hr. discriminate.
Qed.

(** C7 (the code departs from it): the extractor returns
    ["joe@example.com|x"] for that text, a string whose final label
    [com|x] is not made of alphabetic characters only: the class
    [[A-Z|a-z]] of the pattern admits the vertical bar. *)
Theorem extract_returns_bar_label :
  extract_email_addresses (Some "joe@example.com|x") = ["joe@example.com|x"]
  /\ ~ address_shaped "joe@example.com|x".
Proof. split; [reflexivity | exact bar_label_not_address]. Qed.

End ExtractorFacts.

(* ===================================================================== *)
(** ** The scan loop: what one item, one page and one run change *)
(* ===================================================================== *)

Section EngineFacts.
Import Engine Spec.

Implicit Types (st : state) (it : item) (items folder : list item).
Implicit Types (l email_count : loc) (k : string) (r : response).

Lemma counts_count_sender l k st :
  counts l (count_sender l k st)
  = <[k := get (counts l st) k + 1]> (counts l st).
Proof. unfold counts, deref. simpl. now rewrite lookup_insert_eq. Qed.

Lemma counts_advance l st : counts l (advance st) = counts l st.
Proof. reflexivity. Qed.

Lemma get_insert (m : gmap string Z) k k' v :
  get (<[k := v]> m) k' = if decide (k = k') then v else get m k'.
Proof. unfold get. rewrite lookup_insert. now case_decide. Qed.

(** The count of [k] after one item: one more if the item is counted
    under [k], the same otherwise. *)
Lemma get_process_item l st it k :
  get (counts l (process_item l st it)) k
  = get (counts l st) k
    + (if decide (counted_key it = Some k) then 1 else 0).
Proof.
  destruct it as [|[[|c s]|]|]; cbn [process_item counted_key];
    rewrite ?counts_advance; try (case_decide; [easy|lia]).
  rewrite counts_count_sender, get_insert.
  repeat case_decide; try congruence; lia.
Qed.

Lemma occurrences_cons k it items :
  occurrences k (it :: items)
  = ((if decide (counted_key it = Some k) then 1 else 0)
     + occurrences k items)%nat.
Proof.
  unfold occurrences. rewrite filter_cons. now case_decide.
Qed.

Lemma occurrences_app k items items' :
  occurrences k (items ++ items')
  = (occurrences k items + occurrences k items')%nat.
Proof. unfold occurrences. now rewrite filter_app, length_app. Qed.

(** A page adds to each key the number of its items counted under it. *)
Lemma get_process_items l items : forall st k,
  get (counts l (foldl (process_item l) st items)) k
  = get (counts l st) k + Z.of_nat (occurrences k items).
Proof.
  induction items as [|it items IH]; intros st k; simpl.
  - unfold occurrences. simpl. lia.
  - rewrite IH, get_process_item, occurrences_cons.
    case_decide; lia.
Qed.

Lemma process_item_frame l st it :
  retries (process_item l st it) = retries st
  /\ disk (process_item l st it) = disk st
  /\ trace (process_item l st it) = trace st.
Proof. now destruct it as [|[[|c s]|]|]. Qed.

Lemma process_items_frame l items : forall st,
  retries (foldl (process_item l) st items) = retries st
  /\ disk (foldl (process_item l) st items) = disk st
  /\ trace (foldl (process_item l) st items) = trace st.
Proof.
  induction items as [|it items IH]; intros st; simpl; [easy|].
  destruct (IH (process_item l st it)) as (-> & -> & ->).
  apply process_item_frame.
Qed.

(** The cursor after a page none of whose items raises. *)
Lemma processed_process_items l items : forall st,
  Forall (fun it => it <> Raising) items ->
  processed (foldl (process_item l) st items)
  = (processed st + length items)%nat.
Proof.
  induction items as [|it items IH]; intros st H; simpl; [lia|].
  inversion H as [|? ? Hit Hrest]; subst.
  rewrite IH by assumption.
  destruct it as [|[[|c s]|]|]; simpl; try lia. congruence.
Qed.

(** Only the object [email_count] refers to is written. *)
Lemma heap_process_item l l' st it :
  l' <> l -> heap (process_item l st it) !! l' = heap st !! l'.
Proof.
  intros Hne. destruct it as [|[[|c s]|]|]; simpl; try easy.
  now rewrite lookup_insert_ne.
Qed.

Lemma dom_process_item l st it :
  dom (heap (process_item l st it)) ⊆ {[l]} ∪ dom (heap st).
Proof.
  destruct it as [|[[|c s]|]|]; simpl; set_solver.
Qed.

Lemma grows_refl (m : gmap string Z) : grows m m.
Proof. intros k v H. exists v. split; [easy|lia]. Qed.

Lemma grows_trans (m1 m2 m3 : gmap string Z) :
  grows m1 m2 -> grows m2 m3 -> grows m1 m3.
Proof.
  intros H12 H23 k v H.
  destruct (H12 _ _ H) as (v2 & H2 & Hle).
  destruct (H23 _ _ H2) as (v3 & H3 & Hle').
  exists v3. split; [easy|lia].
Qed.

Lemma grows_count_sender l k st :
  grows (counts l st) (counts l (count_sender l k st)).
Proof.
  rewrite counts_count_sender. intros k' v H.
  destruct (decide (k = k')) as [->|Hne].
  - exists (get (counts l st) k' + 1). rewrite lookup_insert_eq.
    split; [easy|]. unfold get. rewrite H. simpl. lia.
  - exists v. rewrite lookup_insert_ne by easy. split; [easy|lia].
Qed.

Lemma grows_process_item l st it :
  grows (counts l st) (counts l (process_item l st it)).
Proof.
  destruct it as [|[[|c s]|]|]; cbn [process_item];
    rewrite ?counts_advance; try apply grows_refl.
  apply grows_count_sender.
Qed.

Lemma grows_process_items l items : forall st,
  grows (counts l st) (counts l (foldl (process_item l) st items)).
Proof.
  induction items as [|it items IH]; intros st; simpl.
  - apply grows_refl.
  - eapply grows_trans; [apply grows_process_item | apply IH].
Qed.

End EngineFacts.

Section LoopFacts.
Import Engine Spec.
Open Scope string_scope.

Implicit Types (st : state) (it : item) (items folder : list item).
Implicit Types (l email_count : loc) (k : string) (r : response).
Implicit Types (rs : list response) (batch_size : nat).

Lemma grows_iteration folder l batch_size r st :
  grows (counts l st) (counts l (fst (iteration folder l batch_size r st))).
Proof.
  destruct r; unfold iteration.
  - destruct (slice folder (processed st) batch_size) as [|it items];
      [apply grows_refl|].
    destruct (Nat.eqb _ _); apply grows_process_items.
  - destruct (Nat.ltb _ _); apply grows_refl.
  - apply grows_refl.
Qed.

Lemma grows_scan_loop folder l batch_size rs : forall st,
  grows (counts l st) (counts l (fst (scan_loop folder l batch_size rs st))).
Proof.
  induction rs as [|r rs IH]; intros st; simpl; [apply grows_refl|].
  pose proof (grows_iteration folder l batch_size r st) as Hr.
  destruct (iteration folder l batch_size r st) as [st' [|]]; simpl in *.
  - eapply grows_trans; [exact Hr | apply IH].
  - exact Hr.
Qed.

(** A run on [rs ++ rs'] is the run on [rs], carried on with [rs'] if
    the loop has not returned. *)
Lemma scan_loop_app folder l batch_size rs rs' : forall st,
  scan_loop folder l batch_size (rs ++ rs') st
  = match scan_loop folder l batch_size rs st with
    | (st', InLoop) => scan_loop folder l batch_size rs' st'
    | (st', Returned) => (st', Returned)
    end.
Proof.
  induction rs as [|r rs IH]; intros st; simpl; [easy|].
  destruct (iteration folder l batch_size r st) as [st' [|]]; [apply IH|easy].
Qed.

(** C9: the counts never decrease and no key is ever removed: neither by
    the processing of one item, nor from any point of a run to any later
    point of it. *)
Theorem counts_never_decrease :
  (forall l st it, grows (counts l st) (counts l (process_item l st it)))
  /\ (forall folder l batch_size rs rs' st,
        grows (counts l (fst (scan_loop folder l batch_size rs st)))
              (counts l (fst (scan_loop folder l batch_size (rs ++ rs') st)))).
Proof.
  split; [exact grows_process_item|].
  intros folder l batch_size rs rs' st. rewrite scan_loop_app.
  destruct (scan_loop folder l batch_size rs st) as [st' [|]]; simpl.
  - apply grows_scan_loop.
  - apply grows_refl.
Qed.

(** *** The heap: which objects a run writes *)

Lemma heap_process_items l l' items : forall st,
  l' <> l -> heap (foldl (process_item l) st items) !! l' = heap st !! l'.
Proof.
  induction items as [|it items IH]; intros st Hne; simpl; [easy|].
  rewrite IH by easy. now apply heap_process_item.
Qed.

Lemma dom_process_items l items : forall st,
  dom (heap (foldl (process_item l) st items)) ⊆ {[l]} ∪ dom (heap st).
Proof.
  induction items as [|it items IH]; intros st; simpl; [set_solver|].
  etrans; [apply IH|].
  apply union_least; [apply union_subseteq_l | apply dom_process_item].
Qed.

Lemma heap_iteration folder l l' batch_size r st :
  l' <> l ->
  heap (fst (iteration folder l batch_size r st)) !! l' = heap st !! l'.
Proof.
  intros Hne. destruct r; unfold iteration.
  - destruct (slice folder (processed st) batch_size) as [|it items];
      [easy|].
    destruct (Nat.eqb _ _); simpl; rewrite heap_process_items by easy;
      now apply heap_process_item.
  - now destruct (Nat.ltb _ _).
  - easy.
Qed.

Lemma dom_iteration folder l batch_size r st :
  dom (heap (fst (iteration folder l batch_size r st)))
  ⊆ {[l]} ∪ dom (heap st).
Proof.
  destruct r; unfold iteration.
  - destruct (slice folder (processed st) batch_size) as [|it items];
      [set_solver|].
    destruct (Nat.eqb _ _); simpl;
      apply (dom_process_items l (it :: items) st).
  - destruct (Nat.ltb _ _); simpl; set_solver.
  - simpl. set_solver.
Qed.

Lemma heap_scan_loop folder l l' batch_size rs : forall st,
  l' <> l ->
  heap (fst (scan_loop folder l batch_size rs st)) !! l' = heap st !! l'.
Proof.
  induction rs as [|r rs IH]; intros st Hne; simpl; [easy|].
  pose proof (heap_iteration folder l l' batch_size r st Hne) as Hr.
  destruct (iteration folder l batch_size r st) as [st' [|]]; simpl in *.
  - now rewrite IH.
  - exact Hr.
Qed.

Lemma dom_scan_loop folder l batch_size rs : forall st,
  dom (heap (fst (scan_loop folder l batch_size rs st)))
  ⊆ {[l]} ∪ dom (heap st).
Proof.
  induction rs as [|r rs IH]; intros st; simpl; [set_solver|].
  pose proof (dom_iteration folder l batch_size r st) as Hr.
  destruct (iteration folder l batch_size r st) as [st' [|]]; simpl in *.
  - etrans; [apply IH|].
    apply union_least; [apply union_subseteq_l | exact Hr].
  - exact Hr.
Qed.

End LoopFacts.

(* ===================================================================== *)
(** ** The accumulation step, the cursor and the caller's mapping *)
(* ===================================================================== *)

Section ItemClaims.
Import Extractor Engine Spec Fixtures Invariants.
Open Scope string_scope.

Implicit Types (st : state) (l : loc).

(** C3 as stated fails: for the sender [SMTP:Joe@Example.com] the code
    counts the whole lowercased field, the specification's step counts
    the lowercased first extracted address [joe@example.com]. *)
Lemma sender_key_is_not_extracted :
  counts caller (process_item caller (start caller_heap first_run) prefixed)
  <> counts caller
       (spec_process_item caller (start caller_heap first_run) prefixed).
Proof.
  intros H.
  apply (f_equal (fun m : gmap string Z => m !! "joe@example.com")) in H.
  vm_compute in H. discriminate.
Qed.

(** C3, amended: for an item whose sender has a non-empty
    [email_address], the key incremented is that field, lowercased and
    taken whole; no extraction is run on it.  Where the extractor's first
    result is the field itself, this is the step the specification
    describes. *)
Theorem process_item_counts_lowercased_sender l st (a : string) :
  a <> "" ->
  counts l (process_item l st (Sender (Some a)))
  = <[lower a := get (counts l st) (lower a) + 1]> (counts l st)
  /\ (head (extract_email_addresses (Some a)) = Some a ->
      process_item l st (Sender (Some a))
      = spec_process_item l st (Sender (Some a))).
Proof.
  intros Ha. destruct a as [|c s]; [congruence|]. split.
  - cbn [process_item]. now rewrite counts_advance, counts_count_sender.
  - intros He. unfold spec_process_item, extracted_key. now rewrite He.
Qed.

Lemma process_item_counts_lowercased_sender_witness :
  counts caller (process_item caller (start caller_heap first_run) prefixed)
  = <[lower "SMTP:Joe@Example.com" :=
        get (counts caller (start caller_heap first_run))
            (lower "SMTP:Joe@Example.com") + 1]>
      (counts caller (start caller_heap first_run)).
Proof.
  apply (process_item_counts_lowercased_sender caller
           (start caller_heap first_run) "SMTP:Joe@Example.com").
  discriminate.
Defined.

(** C4 (the code departs from it): an item whose processing raises
    leaves the cursor where it was.  In the folder [with_raising] the
    first page ends with the cursor at 2, not 3; the next request starts
    at offset 2, fetches the third message again, and the run ends with
    that message counted twice. *)
Theorem raising_item_does_not_advance :
  (forall l st, processed (process_item l st Raising) = processed st)
  /\ processed
       (fst (scan_junk_mail with_raising caller_heap first_run caller 100
               [Page])) = 2%nat
  /\ (let '(st, s) :=
        scan_junk_mail with_raising caller_heap first_run caller 100
          [Page; Page; Page] in
      s = Returned /\ processed st = 3%nat
      /\ counts caller st !! "a@x.co" = Some 1
      /\ counts caller st !! "b@x.co" = Some 2).
Proof. split; [reflexivity|]. vm_compute. repeat split; reflexivity. Qed.

(** A page whose only item raises is requested again and again: the
    cursor never moves and the loop never returns. *)
Lemma raising_page_is_refetched l batch_size n : forall st,
  processed st = 0%nat ->
  let '(st', s) := scan_loop [Raising] l (S batch_size) (repeat Page n) st in
  s = InLoop /\ processed st' = 0%nat.
Proof.
  induction n as [|n IH]; intros st H0; [easy|].
  cbn [repeat scan_loop]. unfold iteration, slice. rewrite H0.
  cbn [drop take]. rewrite take_nil. cbn [foldl process_item].
  destruct (Nat.eqb _ _); apply IH; exact H0.
Qed.

(** C8 as stated fails: after a run that counts one message, the object
    the caller passed in is no longer the empty mapping it was. *)
Lemma caller_mapping_is_mutated :
  deref (heap (fst (scan_junk_mail (junk 1) caller_heap first_run caller
                      100 [Page; Page]))) caller
  <> deref caller_heap caller.
Proof.
  intros H.
  apply (f_equal (fun m : gmap string Z => m !! "news@shop.example")) in H.
  vm_compute in H. discriminate.
Qed.

(** Every count after a run is the count before it plus the number of
    fetched items counted under that key. *)
Lemma get_iteration folder l batch_size r st (k : string) :
  get (counts l (fst (iteration folder l batch_size r st))) k
  = get (counts l st) k
    + Z.of_nat (occurrences k (match r with
                               | Page => slice folder (processed st) batch_size
                               | _ => []
                               end)).
Proof.
  assert (Hz : forall x : Z, x = x + Z.of_nat (occurrences k []))
    by (intros; unfold occurrences; simpl; lia).
  destruct r; unfold iteration.
  - destruct (slice folder (processed st) batch_size) as [|it items];
      [apply (Hz (get (counts l st) k))|].
    destruct (Nat.eqb _ _); apply (get_process_items l (it :: items) st k).
  - destruct (Nat.ltb _ _); apply (Hz (get (counts l st) k)).
  - apply (Hz (get (counts l st) k)).
Qed.

Lemma get_scan_loop folder l batch_size rs (k : string) : forall st,
  get (counts l (fst (scan_loop folder l batch_size rs st))) k
  = get (counts l st) k
    + Z.of_nat (occurrences k (fetched folder l batch_size rs st)).
Proof.
  assert (Hz : occurrences k [] = 0%nat) by reflexivity.
  induction rs as [|r rs IH]; intros st; cbn [scan_loop fetched].
  - cbn [fst]. rewrite Hz. lia.
  - pose proof (get_iteration folder l batch_size r st k) as Hr.
    destruct (iteration folder l batch_size r st) as [st' [|]];
      cbn [fst] in Hr.
    + rewrite IH, Hr, occurrences_app. lia.
    + cbn [fst]. rewrite Hr, occurrences_app, Hz. lia.
Qed.

(** C8, amended: the engine counts into the caller's mapping itself and
    returns that same reference; it makes no copy.  The run allocates no
    object and leaves every other object as it was; in the caller's
    mapping no key is removed and no count lowered; and after the run that
    mapping holds, for every address, the count it had before plus one for
    each item fetched whose sender address, lowercased, is that address. *)
Theorem scan_updates_caller_mapping folder h d l batch_size rs :
  fst (returned l (fst (scan_junk_mail folder h d l batch_size rs))) = l
  /\ dom (heap (fst (scan_junk_mail folder h d l batch_size rs)))
     ⊆ {[l]} ∪ dom h
  /\ (forall l', l' <> l ->
        heap (fst (scan_junk_mail folder h d l batch_size rs)) !! l'
        = h !! l')
  /\ grows (deref h l)
           (deref (heap (fst (scan_junk_mail folder h d l batch_size rs))) l)
  /\ (forall k,
        get (deref (heap (fst (scan_junk_mail folder h d l batch_size rs))) l)
            k
        = get (deref h l) k
          + Z.of_nat (occurrences k
                        (fetched folder l batch_size rs (start h d)))).
Proof.
  unfold scan_junk_mail. split; [reflexivity|].
  split; [|split; [|split]].
  - apply (dom_scan_loop folder l batch_size rs (start h d)).
  - intros l' Hne. now rewrite heap_scan_loop.
  - apply (grows_scan_loop folder l batch_size rs (start h d)).
  - intros k. apply (get_scan_loop folder l batch_size rs k (start h d)).
Qed.

Lemma scan_updates_caller_mapping_witness :
  get (deref (heap (fst (scan_junk_mail (junk 3) counted_heap first_run
                           caller 100 [Page; Page]))) caller)
      "news@shop.example"
  = 7 + Z.of_nat 3
  /\ heap (fst (scan_junk_mail (junk 3) counted_heap first_run caller 100
                  [Page; Page])) !! 2%positive
     = counted_heap !! 2%positive.
Proof.
  destruct (scan_updates_caller_mapping (junk 3) counted_heap first_run caller
              100 [Page; Page]) as (_ & _ & Hother & _ & Hcounts).
  split.
  - rewrite Hcounts. reflexivity.
  - apply Hother. discriminate.
Defined.

End ItemClaims.

(* ===================================================================== *)
(** ** Retries *)
(* ===================================================================== *)

Section RetryClaims.
Import Engine Spec Fixtures.

Implicit Types (st : state) (l : loc) (folder : list item).
Implicit Types (batch_size : nat).

Lemma busy_state_0 st : busy_state 0 st = st.
Proof.
  destruct st. unfold busy_state. simpl.
  now rewrite Nat.add_0_r, app_nil_r.
Qed.

(** As long as the retries are not exhausted, a busy answer only bumps
    [retries] and waits ten seconds per failed attempt. *)
Lemma busy_run folder l batch_size n : forall st,
  (retries st + n <= max_retries)%nat ->
  scan_loop folder l batch_size (repeat ServerBusy n) st
  = (busy_state n st, InLoop).
Proof.
  induction n as [|n IH]; intros st H; cbn [repeat scan_loop].
  - now rewrite busy_state_0.
  - unfold iteration. cbn [retries set_retries].
    destruct (Nat.ltb_spec max_retries (S (retries st))) as [Hgt|_]; [lia|].
    rewrite IH by (simpl; lia).
    unfold busy_state. simpl. rewrite <- app_assoc. simpl.
    do 2 f_equal. lia.
Qed.

Lemma sixth_busy_gives_up folder l batch_size st :
  retries st = 0%nat ->
  scan_loop folder l batch_size (repeat ServerBusy 6) st
  = (save_progress l (set_retries 6 (busy_state 5 st)), Returned).
Proof.
  intros H0.
  change (repeat ServerBusy 6) with (repeat ServerBusy 5 ++ [ServerBusy]).
  rewrite scan_loop_app, busy_run by (rewrite H0; unfold max_retries; lia).
  cbn [scan_loop]. unfold iteration. cbn [retries set_retries busy_state].
  now rewrite H0.
Qed.

(** C5 as stated fails: five consecutive busy answers do not make the
    loop give up. *)
Lemma five_failures_do_not_give_up : ~ gives_up_after 5.
Proof.
  intros H.
  specialize (H [] caller 100%nat (start caller_heap first_run) eq_refl).
  vm_compute in H. discriminate.
Qed.

(** C5, amended: with [max_retries = 5] the loop is still retrying after
    up to five consecutive busy answers (having waited 10, 20, ... seconds)
    and gives up, saving its progress, on the sixth, when [retries]
    exceeds [max_retries]; a page fetched in between resets [retries] to
    0, so that five failures before it and five after it do not make the
    loop give up. *)
Theorem retry_policy_gives_up_on_sixth :
  (forall folder l batch_size st n,
      retries st = 0%nat -> (n <= 5)%nat ->
      scan_loop folder l batch_size (repeat ServerBusy n) st
      = (busy_state n st, InLoop))
  /\ (forall folder l batch_size st,
        retries st = 0%nat ->
        scan_loop folder l batch_size (repeat ServerBusy 6) st
        = (save_progress l (set_retries 6 (busy_state 5 st)), Returned))
  /\ gives_up_after 6
  /\ (forall folder l batch_size st a b,
        retries st = 0%nat -> (a <= 5)%nat -> (b <= 5)%nat ->
        slice folder (processed st) batch_size <> [] ->
        snd (scan_loop folder l batch_size
               (repeat ServerBusy a ++ Page :: repeat ServerBusy b) st)
        = InLoop).
Proof.
  repeat split.
  - intros folder l batch_size st n H0 Hn.
    apply busy_run. rewrite H0. unfold max_retries. lia.
  - intros. now apply sixth_busy_gives_up.
  - intros folder l batch_size st H0. now rewrite sixth_busy_gives_up.
  - intros folder l batch_size st a b H0 Ha Hb Hne.
    rewrite scan_loop_app, busy_run by (rewrite H0; unfold max_retries; lia).
    cbn [scan_loop]. unfold iteration. cbn [processed busy_state].
    destruct (slice folder (processed st) batch_size) as [|it items];
      [congruence|].
    now rewrite busy_run by (unfold max_retries; simpl; lia).
Qed.

Lemma retry_policy_gives_up_on_sixth_witness :
  scan_loop (junk 1) caller 100 (repeat ServerBusy 5)
    (start caller_heap first_run)
  = (busy_state 5 (start caller_heap first_run), InLoop)
  /\ snd (scan_loop (junk 1) caller 100 (repeat ServerBusy 6)
            (start caller_heap first_run)) = Returned
  /\ snd (scan_loop (junk 1) caller 100
            (repeat ServerBusy 5 ++ Page :: repeat ServerBusy 5)
            (start caller_heap first_run)) = InLoop.
Proof.
  destruct retry_policy_gives_up_on_sixth as (H5 & _ & H6 & Hreset).
  split; [|split].
  - apply H5; [reflexivity | lia].
  - apply H6. reflexivity.
  - apply Hreset; [reflexivity | lia | lia | discriminate].
Defined.

End RetryClaims.

(* ===================================================================== *)
(** ** [main]: start-up, resume and the progress file *)
(* ===================================================================== *)

Section ProgramClaims.
Import Engine Spec Fixtures Program.
Open Scope string_scope.

(** C10: with neither a progress file nor a results file, [main] stops
    at the [open] of line 165 with the file-not-found error, whatever the
    folder holds: nothing is scanned and no file is written. *)
Theorem main_without_files_raises timestamp exports folder rs :
  main timestamp (Files None None exports) folder rs
  = FileNotFoundError (Files None None exports).
Proof. reflexivity. Qed.

(** That error is raised in no other case. *)
Lemma main_raises_only_without_files timestamp d folder rs d' :
  main timestamp d folder rs = FileNotFoundError d' ->
  progress_file d = None /\ results_file d = None.
Proof.
  unfold main. destruct (progress_file d) as [cp|].
  - destruct (scan_junk_mail _ _ _ _ _ _) as [st [|]]; discriminate.
  - destruct (results_file d) as [m|]; [|easy].
    destruct (scan_junk_mail _ _ _ _ _ _) as [st [|]]; discriminate.
Qed.

(** Whenever [main] reaches its last line, the progress file is gone:
    lines 203-204 run on every path out of the scan. *)
Lemma main_exit_removes_progress timestamp d folder rs d' :
  main timestamp d folder rs = Exited d' -> progress_file d' = None.
Proof.
  unfold main.
  destruct (match progress_file d with
            | Some progress => Some (cp_email_count progress)
            | None => results_file d
            end) as [m|]; [|discriminate].
  destruct (scan_junk_mail folder {[fresh := m]} d fresh 100 rs)
    as [st [|]]; [discriminate|].
  now intros [= <-].
Qed.

(** C2 (the code departs from it): when the scan gives up after six busy
    answers, or stops on another error, it has saved a checkpoint at
    cursor 100; [main] then goes on to its end, where it writes the
    partial counts as results and removes the progress file it finds. *)
Theorem failed_scan_leaves_no_checkpoint :
  (let '(st, s) :=
     scan_junk_mail (junk 250) {[fresh := ∅]} first_run fresh 100
       (Page :: repeat ServerBusy 6) in
   s = Returned
   /\ progress_file (disk st)
      = Some (Checkpoint {["news@shop.example" := 100]} 100))
  /\ main noon first_run (junk 250) (Page :: repeat ServerBusy 6)
     = Exited (Files None (Some {["news@shop.example" := 100]})
                 {[noon := {["news@shop.example"]}]})
  /\ main noon first_run (junk 250) [Page; Failure]
     = Exited (Files None (Some {["news@shop.example" := 100]})
                 {[noon := {["news@shop.example"]}]}).
Proof. vm_compute. repeat split; reflexivity. Qed.

(** C1 (the code departs from it): over a folder of 200 messages of one
    sender, an uninterrupted run ends with the count 200; a run stopped
    after the checkpoint written at cursor 200 leaves that checkpoint;
    the run resumed from it starts again at cursor 0 and ends with the
    count 400. *)
Theorem resumed_run_counts_twice :
  main noon first_run (junk 200) [Page; Page; Page]
  = Exited (Files None (Some {["news@shop.example" := 200]})
              {[noon := {["news@shop.example"]}]})
  /\ main noon first_run (junk 200) [Page; Page]
     = Scanning (Files (Some (Checkpoint {["news@shop.example" := 200]} 200))
                   (Some ∅) ∅)
  /\ main evening
          (Files (Some (Checkpoint {["news@shop.example" := 200]} 200))
             (Some ∅) ∅)
          (junk 200) [Page; Page; Page]
     = Exited (Files None (Some {["news@shop.example" := 400]}) ∅).
Proof. vm_compute. repeat split; reflexivity. Qed.

End ProgramClaims.

(* ===================================================================== *)
(** ** Whole runs: pages, cursor and checkpoints *)
(* ===================================================================== *)

Section RunClaims.
Import Engine Spec Fixtures.

Implicit Types (st : state) (l : loc) (folder items : list item).
Implicit Types (batch_size : nat) (k : string).

(** What a fetched, non-empty page none of whose items raises does to
    the state: the cursor moves past it, each of its items is counted
    once, the retries are reset, and a checkpoint is written exactly when
    the new cursor is a multiple of [2 * batch_size]. *)
Lemma page_step folder l batch_size st items :
  slice folder (processed st) batch_size = items ->
  items <> [] -> no_raising items ->
  exists st',
    iteration folder l batch_size Page st = (st', true)
    /\ processed st' = (processed st + length items)%nat
    /\ retries st' = 0%nat
    /\ (forall k, get (counts l st') k
                  = get (counts l st) k + Z.of_nat (occurrences k items))
    /\ saves (trace st')
       = saves (trace st)
         ++ (if Nat.eqb (Nat.modulo (processed st') (batch_size * 2)) 0
             then [Checkpoint (counts l st') (processed st')] else []).
Proof.
  intros Hs Hne Hok. unfold iteration. rewrite Hs.
  destruct items as [|it items]; [congruence|].
  set (st1 := foldl (process_item l) st (it :: items)).
  assert (Hp : processed st1 = (processed st + length (it :: items))%nat)
    by now apply processed_process_items.
  assert (Hc : forall k, get (counts l st1) k
               = get (counts l st) k
                 + Z.of_nat (occurrences k (it :: items)))
    by apply get_process_items.
  destruct (process_items_frame l (it :: items) st) as (_ & _ & Ht).
  fold st1 in Ht.
  eexists. split; [reflexivity|].
  destruct (Nat.eqb (Nat.modulo (processed st1) (batch_size * 2)) 0) eqn:E;
    cbn [processed retries trace set_retries sleep save_progress];
    rewrite ?E; repeat split; try assumption.
  - unfold saves. rewrite !omap_app, Ht. simpl. now rewrite app_nil_r.
  - unfold saves. rewrite omap_app, Ht. simpl. now rewrite !app_nil_r.
Qed.

Lemma occurrences_nil k : occurrences k [] = 0%nat.
Proof. reflexivity. Qed.

(** C6 as stated fails: in the scenario (250 messages, pages of 100, one
    busy answer before the second page) the run writes one checkpoint,
    not two. *)
Lemma scenario_writes_one_checkpoint :
  length (saves (trace (fst (scan_junk_mail (junk 250) caller_heap first_run
                               caller 100
                               [Page; ServerBusy; Page; Page; Page]))))
  <> 2%nat.
Proof. vm_compute. discriminate. Qed.

(** C6, amended: for every folder of 250 items none of which raises,
    scanned in pages of 100 with one busy answer before the second page,
    the run returns with the cursor at 250 and each item counted exactly
    once, and the [2 * batch_size] rule writes exactly one checkpoint: at
    cursor 200, holding the counts of the first 200 items. *)
Theorem scenario_250 folder h d l :
  length folder = 250%nat -> no_raising folder ->
  exists st cp,
    scan_junk_mail folder h d l 100 [Page; ServerBusy; Page; Page; Page]
    = (st, Returned)
    /\ processed st = 250%nat
    /\ (forall k, get (counts l st) k
                  = get (deref h l) k + Z.of_nat (occurrences k folder))
    /\ saves (trace st) = [cp]
    /\ cp_processed cp = 200%nat
    /\ (forall k, get (cp_email_count cp) k
                  = get (deref h l) k
                    + Z.of_nat (occurrences k (take 200 folder))).
Proof.
  intros Hlen Hok. unfold scan_junk_mail.
  set (p1 := take 100 folder).
  set (p2 := take 100 (drop 100 folder)).
  set (p3 := take 100 (drop 200 folder)).
  assert (L1 : length p1 = 100%nat) by (unfold p1; rewrite length_take; lia).
  assert (L2 : length p2 = 100%nat)
    by (unfold p2; rewrite length_take, length_drop; lia).
  assert (L3 : length p3 = 50%nat)
    by (unfold p3; rewrite length_take, length_drop; lia).
  assert (E12 : take 200 folder = p1 ++ p2)
    by (unfold p1, p2; now rewrite (take_take_drop folder 100 100)).
  assert (E : folder = p1 ++ p2 ++ p3).
  { rewrite app_assoc, <- E12. unfold p3.
    rewrite (take_ge (drop 200 folder))
      by (rewrite length_drop; lia).
    now rewrite take_drop. }
  assert (N1 : p1 <> []) by (intros X; rewrite X in L1; discriminate).
  assert (N2 : p2 <> []) by (intros X; rewrite X in L2; discriminate).
  assert (N3 : p3 <> []) by (intros X; rewrite X in L3; discriminate).
  assert (O1 : no_raising p1) by now apply Forall_take.
  assert (O2 : no_raising p2) by now apply Forall_take, Forall_drop.
  assert (O3 : no_raising p3) by now apply Forall_take, Forall_drop.
  (* first page *)
  destruct (page_step folder l 100 (start h d) p1 eq_refl N1 O1)
    as (s1 & I1 & P1 & R1 & C1 & S1).
  rewrite L1 in P1. simpl in P1. rewrite P1 in S1. simpl in S1.
  (* the busy answer *)
  pose proof (busy_run folder l 100 1 s1) as B.
  rewrite R1 in B. specialize (B ltac:(unfold max_retries; lia)).
  cbn [repeat scan_loop] in B.
  destruct (iteration folder l 100 ServerBusy s1) as [s2 [|]] eqn:I2;
    [|discriminate].
  injection B as B.
  assert (P2 : processed s2 = 100%nat) by now rewrite B.
  assert (C2 : counts l s2 = counts l s1) by now rewrite B.
  assert (S2 : saves (trace s2) = []).
  { rewrite B. unfold busy_state, saves. cbn [trace].
    rewrite omap_app. fold (saves (trace s1)). now rewrite S1. }
  (* second page *)
  destruct (page_step folder l 100 s2 p2) as (s3 & I3 & P3 & R3 & C3 & S3);
    [now rewrite P2 | assumption | assumption |].
  rewrite P2, L2 in P3. simpl in P3. rewrite P3, S2 in S3. simpl in S3.
  (* third page *)
  destruct (page_step folder l 100 s3 p3) as (s4 & I4 & P4 & R4 & C4 & S4);
    [now rewrite P3 | assumption | assumption |].
  rewrite P3, L3 in P4. simpl in P4. rewrite P4, S3 in S4. simpl in S4.
  (* the empty page *)
  assert (I5 : iteration folder l 100 Page s4 = (s4, false)).
  { unfold iteration, slice. rewrite P4.
    now rewrite (drop_ge folder 250) by lia. }
  exists s4, (Checkpoint (counts l s3) 200).
  cbn [scan_loop]. rewrite I1, I2, I3, I4, I5.
  repeat split; try assumption.
  - intros k. rewrite C4, C3, C2, C1, E, !occurrences_app.
    unfold counts at 1. cbn [heap start]. lia.
  - intros k. cbn [cp_email_count]. rewrite C3, C2, C1, E12, occurrences_app.
    unfold counts at 1. cbn [heap start]. lia.
Qed.

Lemma scenario_250_witness :
  exists st cp,
    scan_junk_mail (junk 250) caller_heap first_run caller 100
      [Page; ServerBusy; Page; Page; Page] = (st, Returned)
    /\ processed st = 250%nat
    /\ (forall k, get (counts caller st) k
                  = get (deref caller_heap caller) k
                    + Z.of_nat (occurrences k (junk 250)))
    /\ saves (trace st) = [cp]
    /\ cp_processed cp = 200%nat
    /\ (forall k, get (cp_email_count cp) k
                  = get (deref caller_heap caller) k
                    + Z.of_nat (occurrences k (take 200 (junk 250)))).
Proof.
  apply (scenario_250 (junk 250) caller_heap first_run caller).
  - reflexivity.
  - apply List.Forall_forall. intros it Hin.
    apply repeat_spec in Hin. subst it. discriminate.
Defined.

(** *** Runs whose requests all succeed *)

Lemma drop_past_page folder p batch_size :
  drop (p + length (slice folder p batch_size)) folder
  = drop batch_size (drop p folder).
Proof.
  unfold slice. rewrite drop_drop, length_take, length_drop.
  destruct (Nat.le_gt_cases batch_size (length folder - p)) as [Hle|Hgt].
  - now rewrite Nat.min_l.
  - rewrite Nat.min_r by lia. now rewrite !drop_ge by lia.
Qed.

(** From any point of a folder none of whose items raises, [S n] answered
    requests bring the loop to its end when [n] pages cover what is left:
    the cursor ends at the length of the folder and every remaining item
    has been counted once. *)
Lemma pages_run folder l batch_size :
  (0 < batch_size)%nat -> no_raising folder ->
  forall n st,
    (processed st <= length folder)%nat ->
    (length folder - processed st <= n * batch_size)%nat ->
    exists st',
      scan_loop folder l batch_size (repeat Page (S n)) st = (st', Returned)
      /\ processed st' = length folder
      /\ (forall k, get (counts l st') k
                    = get (counts l st) k
                      + Z.of_nat (occurrences k (drop (processed st) folder))).
Proof.
  intros Hb Hok. induction n as [|n IH]; intros st Hle Hrem.
  - assert (Hp : processed st = length folder) by lia.
    exists st. cbn [repeat scan_loop]. unfold iteration, slice.
    rewrite Hp, drop_all, take_nil. repeat split.
    intros k. rewrite occurrences_nil. lia.
  - destruct (decide (processed st = length folder)) as [Hp|Hp].
    + exists st. cbn [repeat scan_loop]. unfold iteration, slice.
      rewrite Hp, drop_all, take_nil. repeat split.
      intros k. rewrite occurrences_nil. lia.
    + set (items := slice folder (processed st) batch_size).
      assert (Hlen : length items
                     = Nat.min batch_size (length folder - processed st))
        by (unfold items, slice; now rewrite length_take, length_drop).
      assert (Hne : items <> [])
        by (intros X; rewrite X in Hlen; simpl in Hlen; lia).
      assert (Hoki : no_raising items)
        by now apply Forall_take, Forall_drop.
      destruct (page_step folder l batch_size st items eq_refl Hne Hoki)
        as (st1 & I1 & P1 & _ & C1 & _).
      destruct (IH st1) as (st' & Hrun & Hend & Hc); [lia | nia |].
      exists st'. change (repeat Page (S (S n))) with (Page :: repeat Page (S n)).
      cbn [scan_loop]. rewrite I1. repeat split; try assumption.
      intros k. rewrite Hc, C1, P1. unfold items at 2.
      rewrite drop_past_page.
      assert (Ho : occurrences k (drop (processed st) folder)
                   = (occurrences k items
                      + occurrences k
                          (drop batch_size (drop (processed st) folder)))%nat).
      { rewrite <- occurrences_app. unfold items, slice.
        now rewrite take_drop. }
      rewrite Ho. lia.
Qed.

(** A run over a folder none of whose items raises, with a positive page
    size and every request answered, returns once the pages cover the
    folder: the cursor is the number of items and each item has been
    counted exactly once on top of the baseline. *)
Theorem answered_run_counts_every_item_once folder h d l batch_size n :
  (0 < batch_size)%nat -> no_raising folder ->
  (length folder <= n * batch_size)%nat ->
  exists st,
    scan_junk_mail folder h d l batch_size (repeat Page (S n)) = (st, Returned)
    /\ processed st = length folder
    /\ (forall k, get (counts l st) k
                  = get (deref h l) k + Z.of_nat (occurrences k folder)).
Proof.
  intros Hb Hok Hn. unfold scan_junk_mail.
  destruct (pages_run folder l batch_size Hb Hok n (start h d))
    as (st & Hrun & Hend & Hc); [simpl; lia | simpl; lia |].
  exists st. repeat split; assumption.
Qed.

Lemma answered_run_counts_every_item_once_witness :
  exists st,
    scan_junk_mail (junk 250) caller_heap first_run caller 100
      (repeat Page 4) = (st, Returned)
    /\ processed st = length (junk 250)
    /\ (forall k, get (counts caller st) k
                  = get (deref caller_heap caller) k
                    + Z.of_nat (occurrences k (junk 250))).
Proof.
  apply (answered_run_counts_every_item_once (junk 250) caller_heap first_run
           caller 100 3).
  - lia.
  - apply List.Forall_forall. intros it Hin.
    apply repeat_spec in Hin. subst it. discriminate.
  - unfold junk. rewrite repeat_length. lia.
Defined.

(** An empty folder: the first answered request ends the scan; nothing
    is counted, nothing is saved and the loop has not slept. *)
Theorem empty_folder_returns_at_once h d l batch_size rs :
  scan_junk_mail [] h d l batch_size (Page :: rs) = (start h d, Returned).
Proof.
  unfold scan_junk_mail. cbn [scan_loop]. unfold iteration, slice.
  now rewrite drop_nil, take_nil.
Qed.

(** *** The addresses new to a run *)

Lemma new_emails_process_item l st it k :
  k ∈ new_emails (process_item l st it) ->
  k ∈ new_emails st
  \/ (counted_key it = Some k /\ get (counts l st) k = 0).
Proof.
  destruct it as [|[[|c s]|]|]; cbn [process_item new_emails advance];
    auto.
  unfold count_sender. cbn [new_emails].
  destruct (Z.eqb_spec (get (counts l st) (lower (String c s)) + 1) 1)
    as [E|_]; [|auto].
  rewrite elem_of_union, elem_of_singleton. intros [->|H]; [|auto].
  right. split; [reflexivity | lia].
Qed.

Lemma new_since_process_item c0 l st it :
  new_since c0 l st -> new_since c0 l (process_item l st it).
Proof.
  intros [Hmono Hnew]. split.
  - intros k. rewrite get_process_item. specialize (Hmono k).
    case_decide; lia.
  - intros k Hk. rewrite get_process_item.
    apply new_emails_process_item in Hk as [Hold|[Hkey H0]].
    + destruct (Hnew k Hold). case_decide; split; lia.
    + specialize (Hmono k). rewrite decide_True by assumption. split; lia.
Qed.

Lemma new_since_process_items c0 l items : forall st,
  new_since c0 l st -> new_since c0 l (foldl (process_item l) st items).
Proof.
  induction items as [|it items IH]; intros st H; simpl; [easy|].
  now apply IH, new_since_process_item.
Qed.

Lemma new_since_iteration c0 folder l batch_size r st :
  new_since c0 l st ->
  new_since c0 l (fst (iteration folder l batch_size r st)).
Proof.
  intros H. destruct r; unfold iteration.
  - destruct (slice folder (processed st) batch_size) as [|it items];
      [easy|].
    destruct (Nat.eqb _ _);
      apply (new_since_process_items c0 l (it :: items) st H).
  - now destruct (Nat.ltb _ _).
  - easy.
Qed.

Lemma new_since_scan_loop c0 folder l batch_size rs : forall st,
  new_since c0 l st ->
  new_since c0 l (fst (scan_loop folder l batch_size rs st)).
Proof.
  induction rs as [|r rs IH]; intros st H; simpl; [easy|].
  pose proof (new_since_iteration c0 folder l batch_size r st H) as Hr.
  destruct (iteration folder l batch_size r st) as [st' [|]]; simpl in *;
    [now apply IH | exact Hr].
Qed.

(** Every address reported as new has been counted at least once by the
    end of the run and had no positive count in the baseline (a count of
    exactly 0 when the baseline holds no negative count). *)
Theorem new_emails_were_uncounted folder h d l batch_size rs k :
  k ∈ new_emails (fst (scan_junk_mail folder h d l batch_size rs)) ->
  1 <= get (counts l (fst (scan_junk_mail folder h d l batch_size rs))) k
  /\ get (deref h l) k <= 0.
Proof.
  apply (new_since_scan_loop (deref h l) folder l batch_size rs (start h d)).
  split; [intros k'; unfold counts; simpl; lia | intros k' Hk'].
  cbn [new_emails start] in Hk'. now apply not_elem_of_empty in Hk'.
Qed.

Lemma new_emails_were_uncounted_witness :
  1 <= get (counts caller
              (fst (scan_junk_mail (junk 1) caller_heap first_run caller 100
                      [Page; Page])))
           "news@shop.example"
  /\ get (deref caller_heap caller) "news@shop.example" <= 0.
Proof.
  apply (new_emails_were_uncounted (junk 1) caller_heap first_run caller 100
           [Page; Page] "news@shop.example").
  assert (E : new_emails
                (fst (scan_junk_mail (junk 1) caller_heap first_run caller 100
                        [Page; Page]))
              = {["news@shop.example"%string]})
    by (vm_compute; reflexivity).
  rewrite E. now apply elem_of_singleton.
Defined.

(** *** A resumed run, in general *)

(** Started on a progress file holding the counts [m] and any cursor [p],
    [main] scans the folder from its first item: when every request is
    answered, the results it writes are [m] with every item of the folder
    counted once more, whatever [p] is. *)
Theorem resumed_run_recounts_folder timestamp m p res exports folder n :
  no_raising folder -> (length folder <= n * 100)%nat ->
  exists d' m',
    Program.main timestamp (Files (Some (Checkpoint m p)) res exports) folder
      (repeat Page (S n)) = Program.Exited d'
    /\ results_file d' = Some m'
    /\ (forall k, get m' k = get m k + Z.of_nat (occurrences k folder)).
Proof.
  intros Hok Hn. unfold Program.main, scan_junk_mail.
  cbn [progress_file cp_email_count].
  destruct (pages_run folder Program.fresh 100 ltac:(lia) Hok n
              (start {[Program.fresh := m]}
                 (Files (Some (Checkpoint m p)) res exports)))
    as (st & Hrun & _ & Hc); [simpl; lia | simpl; lia |].
  rewrite Hrun. eexists _, _. split; [reflexivity|].
  split; [reflexivity|].
  intros k. rewrite Hc. unfold counts, deref. cbn [heap start processed].
  now rewrite lookup_singleton_eq.
Qed.

Lemma resumed_run_recounts_folder_witness :
  exists d' m',
    Program.main evening
      (Files (Some (Checkpoint {["news@shop.example"%string := 200]} 200))
         (Some ∅) ∅)
      (junk 200) (repeat Page 3) = Program.Exited d'
    /\ results_file d' = Some m'
    /\ (forall k, get m' k
                  = get {["news@shop.example"%string := 200]} k
                    + Z.of_nat (occurrences k (junk 200))).
Proof.
  apply (resumed_run_recounts_folder evening
           {["news@shop.example"%string := 200]} 200 (Some ∅) ∅ (junk 200) 2).
  - apply List.Forall_forall. intros it Hin.
    apply repeat_spec in Hin. subst it. discriminate.
  - unfold junk. rewrite repeat_length. lia.
Defined.

End RunClaims.

(* ===================================================================== *)
(** ** Invariants of the scan loop *)
(* ===================================================================== *)

Section RunInvariants.
Import Engine Spec Fixtures Invariants.

Implicit Types (st : state) (it : item) (items folder : list item).
Implicit Types (l : loc) (k : string) (r : response).
Implicit Types (rs : list response) (batch_size : nat).

(** *** The cursor *)

Lemma processed_process_item_bounds l st it :
  (processed st <= processed (process_item l st it) <= S (processed st))%nat.
Proof. destruct it as [|[[|c s]|]|]; simpl; lia. Qed.

Lemma processed_process_items_bounds l items : forall st,
  (processed st <= processed (foldl (process_item l) st items)
   <= processed st + length items)%nat.
Proof.
  induction items as [|it items IH]; intros st; simpl; [lia|].
  pose proof (IH (process_item l st it)).
  pose proof (processed_process_item_bounds l st it). lia.
Qed.

Lemma length_slice folder p batch_size :
  length (slice folder p batch_size)
  = Nat.min batch_size (length folder - p).
Proof. unfold slice. now rewrite length_take, length_drop. Qed.

Lemma processed_iteration folder l batch_size r st :
  (processed st <= processed (fst (iteration folder l batch_size r st)))%nat
  /\ ((processed st <= length folder)%nat ->
      (processed (fst (iteration folder l batch_size r st))
       <= length folder)%nat).
Proof.
  destruct r; unfold iteration.
  - pose proof (length_slice folder (processed st) batch_size) as Hlen.
    destruct (slice folder (processed st) batch_size) as [|it items];
      [simpl; lia|].
    pose proof (processed_process_items_bounds l (it :: items) st) as Hb.
    destruct (Nat.eqb _ _); cbn [fst processed set_retries sleep save_progress];
      lia.
  - destruct (Nat.ltb _ _); simpl; lia.
  - simpl; lia.
Qed.

Lemma processed_scan_loop folder l batch_size rs : forall st,
  (processed st <= processed (fst (scan_loop folder l batch_size rs st)))%nat
  /\ ((processed st <= length folder)%nat ->
      (processed (fst (scan_loop folder l batch_size rs st))
       <= length folder)%nat).
Proof.
  induction rs as [|r rs IH]; intros st; simpl; [lia|].
  pose proof (processed_iteration folder l batch_size r st) as Hr.
  destruct (iteration folder l batch_size r st) as [st' [|]]; simpl in *.
  - pose proof (IH st'). lia.
  - exact Hr.
Qed.

(** The cursor never moves back and never passes the end of the folder:
    between any two points of a run it can only grow, and it stays at most
    the number of items of the folder. *)
Theorem cursor_grows_within_folder folder h d l batch_size rs rs' :
  (processed (fst (scan_junk_mail folder h d l batch_size rs))
   <= processed (fst (scan_junk_mail folder h d l batch_size (rs ++ rs')))
   <= length folder)%nat.
Proof.
  unfold scan_junk_mail. split.
  - rewrite scan_loop_app.
    destruct (scan_loop folder l batch_size rs (start h d)) as [st [|]];
      simpl; [|lia].
    apply processed_scan_loop.
  - apply processed_scan_loop. simpl. lia.
Qed.

(** *** Requests that fail *)

Lemma failed_iteration folder l batch_size r st :
  failed r ->
  heap (fst (iteration folder l batch_size r st)) = heap st
  /\ new_emails (fst (iteration folder l batch_size r st)) = new_emails st
  /\ processed (fst (iteration folder l batch_size r st)) = processed st.
Proof.
  intros Hf. destruct r; [now destruct Hf | |]; unfold iteration.
  - now destruct (Nat.ltb _ _).
  - easy.
Qed.

(** Requests that fail consume nothing: however many busy answers and
    errors a run meets, they leave the counts, the set of new addresses and
    the cursor as they were; only the waits, the retry count and the
    progress file change. *)
Theorem failed_requests_consume_nothing folder l batch_size rs : forall st,
  Forall failed rs ->
  heap (fst (scan_loop folder l batch_size rs st)) = heap st
  /\ new_emails (fst (scan_loop folder l batch_size rs st)) = new_emails st
  /\ processed (fst (scan_loop folder l batch_size rs st)) = processed st.
Proof.
  induction rs as [|r rs IH]; intros st Hf; simpl; [easy|].
  inversion Hf as [|? ? Hr Hrs]; subst.
  pose proof (failed_iteration folder l batch_size r st Hr) as Hi.
  destruct (iteration folder l batch_size r st) as [st' [|]]; simpl in *.
  - destruct (IH st' Hrs) as (-> & -> & ->). exact Hi.
  - exact Hi.
Qed.

Lemma failed_requests_consume_nothing_witness :
  heap (fst (scan_loop (junk 3) caller 100 [ServerBusy; ServerBusy; Failure]
               (start caller_heap first_run))) = caller_heap
  /\ new_emails (fst (scan_loop (junk 3) caller 100
                        [ServerBusy; ServerBusy; Failure]
                        (start caller_heap first_run))) = ∅
  /\ processed (fst (scan_loop (junk 3) caller 100
                       [ServerBusy; ServerBusy; Failure]
                       (start caller_heap first_run))) = 0%nat.
Proof.
  apply (failed_requests_consume_nothing (junk 3) caller 100
           [ServerBusy; ServerBusy; Failure] (start caller_heap first_run)).
  repeat constructor; discriminate.
Defined.

(** *** The retry count *)

Lemma retries_iteration folder l batch_size r st :
  (retries st <= max_retries)%nat ->
  (retries (fst (iteration folder l batch_size r st)) <= S max_retries)%nat
  /\ (snd (iteration folder l batch_size r st) = true ->
      (retries (fst (iteration folder l batch_size r st))
       <= max_retries)%nat).
Proof.
  intros H. destruct r; unfold iteration.
  - destruct (slice folder (processed st) batch_size) as [|it items];
      [simpl; split; [lia | discriminate]|].
    destruct (Nat.eqb _ _); simpl; split; intros; unfold max_retries; lia.
  - cbn [retries set_retries].
    destruct (Nat.ltb_spec max_retries (S (retries st))); simpl;
      split; try discriminate; intros; lia.
  - simpl. split; [lia | discriminate].
Qed.

(** While the loop runs, the retry count is at most [max_retries]; it
    exceeds it, by one, only in the state in which the loop gives up. *)
Theorem retries_stay_bounded folder l batch_size rs : forall st,
  (retries st <= max_retries)%nat ->
  (retries (fst (scan_loop folder l batch_size rs st)) <= S max_retries)%nat
  /\ (snd (scan_loop folder l batch_size rs st) = InLoop ->
      (retries (fst (scan_loop folder l batch_size rs st))
       <= max_retries)%nat).
Proof.
  induction rs as [|r rs IH]; intros st H; simpl; [split; intros; lia|].
  pose proof (retries_iteration folder l batch_size r st H) as [Hb Hgo].
  destruct (iteration folder l batch_size r st) as [st' [|]]; simpl in *.
  - apply IH. now apply Hgo.
  - split; [exact Hb | discriminate].
Qed.

Lemma retries_stay_bounded_witness :
  (retries (fst (scan_loop (junk 3) caller 100
                   (repeat ServerBusy 6) (start caller_heap first_run)))
   <= S max_retries)%nat.
Proof.
  apply (retries_stay_bounded (junk 3) caller 100 (repeat ServerBusy 6)
           (start caller_heap first_run)).
  simpl. unfold max_retries. lia.
Defined.

(** *** Checkpoints *)

Lemma saves_app tr tr' : saves (tr ++ tr') = saves tr ++ saves tr'.
Proof. apply omap_app. Qed.

Lemma progress_after_saved p0 tr cp :
  progress_after p0 (tr ++ [Saved cp]) = Some cp.
Proof.
  unfold progress_after. rewrite saves_app. simpl.
  now rewrite last_snoc.
Qed.

Lemma progress_after_slept p0 tr n :
  progress_after p0 (tr ++ [Slept n]) = progress_after p0 tr.
Proof.
  unfold progress_after. rewrite saves_app. simpl. now rewrite app_nil_r.
Qed.

Lemma run_consistent_save c0 p0 folder l st :
  run_consistent c0 p0 folder l st ->
  run_consistent c0 p0 folder l (save_progress l st).
Proof.
  intros (Hp & Hc & Hs & Hf). repeat split; try assumption.
  - cbn [trace save_progress]. rewrite saves_app. apply Forall_app.
    split; [assumption|]. simpl. repeat constructor; assumption.
  - cbn [disk trace save_progress progress_file].
    now rewrite progress_after_saved.
Qed.

Lemma run_consistent_sleep c0 p0 folder l st n :
  run_consistent c0 p0 folder l st ->
  run_consistent c0 p0 folder l (sleep n st).
Proof.
  intros (Hp & Hc & Hs & Hf). repeat split; try assumption.
  - cbn [trace sleep]. rewrite saves_app. simpl. now rewrite app_nil_r.
  - cbn [disk trace sleep]. now rewrite progress_after_slept.
Qed.

Lemma run_consistent_retries c0 p0 folder l st n :
  run_consistent c0 p0 folder l st ->
  run_consistent c0 p0 folder l (set_retries n st).
Proof. intros (Hp & Hc & Hs & Hf). repeat split; assumption. Qed.

Lemma take_past_page folder p batch_size :
  take (p + length (slice folder p batch_size)) folder
  = take p folder ++ slice folder p batch_size.
Proof.
  rewrite <- take_take_drop. f_equal. unfold slice.
  rewrite length_take.
  destruct (Nat.le_gt_cases batch_size (length (drop p folder))) as [H|H].
  - now rewrite Nat.min_l.
  - rewrite Nat.min_r by lia. now rewrite !take_ge by lia.
Qed.

Lemma run_consistent_page c0 p0 folder l batch_size st :
  no_raising folder ->
  run_consistent c0 p0 folder l st ->
  run_consistent c0 p0 folder l
    (foldl (process_item l) st (slice folder (processed st) batch_size)).
Proof.
  intros Hok (Hp & Hc & Hs & Hf).
  set (items := slice folder (processed st) batch_size).
  assert (Hoki : no_raising items) by now apply Forall_take, Forall_drop.
  pose proof (processed_process_items l items st Hoki) as Hp'.
  pose proof (length_slice folder (processed st) batch_size) as Hlen.
  fold items in Hlen.
  destruct (process_items_frame l items st) as (_ & Hd & Ht).
  repeat split.
  - lia.
  - intros k. rewrite get_process_items, Hc, Hp'. unfold items.
    rewrite take_past_page, occurrences_app. lia.
  - now rewrite Ht.
  - now rewrite Hd, Ht.
Qed.

Lemma run_consistent_iteration c0 p0 folder l batch_size r st :
  no_raising folder ->
  run_consistent c0 p0 folder l st ->
  run_consistent c0 p0 folder l (fst (iteration folder l batch_size r st)).
Proof.
  intros Hok H. destruct r; unfold iteration.
  - pose proof (run_consistent_page c0 p0 folder l batch_size st Hok H) as Hpg.
    destruct (slice folder (processed st) batch_size) as [|it items];
      [exact H|].
    destruct (Nat.eqb _ _); cbn [fst];
      apply run_consistent_retries, run_consistent_sleep;
      [apply run_consistent_save|]; exact Hpg.
  - destruct (Nat.ltb _ _); cbn [fst].
    + now apply run_consistent_save, run_consistent_retries.
    + now apply run_consistent_sleep, run_consistent_retries.
  - now apply run_consistent_save.
Qed.

Lemma run_consistent_scan_loop c0 p0 folder l batch_size rs : forall st,
  no_raising folder ->
  run_consistent c0 p0 folder l st ->
  run_consistent c0 p0 folder l (fst (scan_loop folder l batch_size rs st)).
Proof.
  induction rs as [|r rs IH]; intros st Hok H; simpl; [exact H|].
  pose proof (run_consistent_iteration c0 p0 folder l batch_size r st Hok H)
    as Hr.
  destruct (iteration folder l batch_size r st) as [st' [|]]; simpl in *;
    [now apply IH | exact Hr].
Qed.

(** Over a folder none of whose items raises, at every point of every run
    (pages, busy answers and errors in any order): the counts are the
    baseline with exactly the items before the cursor counted once each;
    every checkpoint written so far, whether by the [2 * batch_size] rule,
    on giving up or on an error, pairs a cursor with the counts of the
    items before that cursor; and the progress file holds the last
    checkpoint written. *)
Theorem checkpoints_agree_with_folder folder h d l batch_size rs :
  no_raising folder ->
  run_consistent (deref h l) (progress_file d) folder l
    (fst (scan_junk_mail folder h d l batch_size rs)).
Proof.
  intros Hok. apply run_consistent_scan_loop; [assumption|].
  repeat split; simpl; try lia; try constructor.
  intros k. unfold occurrences. simpl. unfold counts. simpl. lia.
Qed.

Lemma checkpoints_agree_with_folder_witness :
  run_consistent (deref caller_heap caller) (progress_file first_run)
    (junk 250) caller
    (fst (scan_junk_mail (junk 250) caller_heap first_run caller 100
            [Page; ServerBusy; Page; Failure])).
Proof.
  apply (checkpoints_agree_with_folder (junk 250) caller_heap first_run
           caller 100 [Page; ServerBusy; Page; Failure]).
  apply List.Forall_forall. intros it Hin.
  apply repeat_spec in Hin. subst it. discriminate.
Defined.

(** *** The files a scan leaves alone *)

Lemma other_files_iteration folder l batch_size r st :
  results_file (disk (fst (iteration folder l batch_size r st)))
  = results_file (disk st)
  /\ new_emails_files (disk (fst (iteration folder l batch_size r st)))
     = new_emails_files (disk st).
Proof.
  destruct r; unfold iteration.
  - destruct (slice folder (processed st) batch_size) as [|it items];
      [easy|].
    destruct (process_items_frame l (it :: items) st) as (_ & Hd & _).
    destruct (Nat.eqb _ _); cbn [fst disk set_retries sleep save_progress
                                 results_file new_emails_files];
      now rewrite Hd.
  - now destruct (Nat.ltb _ _).
  - easy.
Qed.

Lemma other_files_scan_loop folder l batch_size rs : forall st,
  results_file (disk (fst (scan_loop folder l batch_size rs st)))
  = results_file (disk st)
  /\ new_emails_files (disk (fst (scan_loop folder l batch_size rs st)))
     = new_emails_files (disk st).
Proof.
  induction rs as [|r rs IH]; intros st; simpl; [easy|].
  pose proof (other_files_iteration folder l batch_size r st) as [Hr He].
  destruct (iteration folder l batch_size r st) as [st' [|]]; simpl in *.
  - destruct (IH st') as [-> ->]. easy.
  - easy.
Qed.

(** The scan writes no file but the progress file: the results file and
    the exports of new addresses are, at every point of a run, what they
    were when it started. *)
Theorem scan_writes_only_progress folder h d l batch_size rs :
  results_file (disk (fst (scan_junk_mail folder h d l batch_size rs)))
  = results_file d
  /\ new_emails_files (disk (fst (scan_junk_mail folder h d l batch_size rs)))
     = new_emails_files d.
Proof.
  apply (other_files_scan_loop folder l batch_size rs (start h d)).
Qed.

(** *** The set of new addresses, exactly *)

Lemma new_exactly_process_item c0 l st it :
  new_exactly c0 l st -> new_exactly c0 l (process_item l st it).
Proof.
  intros [Hmono Hnew].
  destruct it as [|[[|c s]|]|]; cbn [process_item]; try (split; assumption).
  set (key := lower (String c s)).
  split; intros k; rewrite counts_advance, counts_count_sender, get_insert;
    specialize (Hmono k); specialize (Hnew k).
  - case_decide; [subst k|]; lia.
  - cbn [new_emails advance count_sender].
    destruct (Z.eqb_spec (get (counts l st) key + 1) 1) as [E|E];
      destruct (decide (key = k)) as [->|Hne].
    + rewrite elem_of_union, elem_of_singleton. split; [lia | auto].
    + rewrite elem_of_union, elem_of_singleton. rewrite Hnew.
      split; [intros [?|?]; [congruence | assumption] | auto].
    + rewrite Hnew. lia.
    + exact Hnew.
Qed.

Lemma new_exactly_process_items c0 l items : forall st,
  new_exactly c0 l st -> new_exactly c0 l (foldl (process_item l) st items).
Proof.
  induction items as [|it items IH]; intros st H; simpl; [easy|].
  now apply IH, new_exactly_process_item.
Qed.

Lemma new_exactly_iteration c0 folder l batch_size r st :
  new_exactly c0 l st ->
  new_exactly c0 l (fst (iteration folder l batch_size r st)).
Proof.
  intros H. destruct r; unfold iteration.
  - destruct (slice folder (processed st) batch_size) as [|it items];
      [easy|].
    destruct (Nat.eqb _ _);
      apply (new_exactly_process_items c0 l (it :: items) st H).
  - now destruct (Nat.ltb _ _).
  - easy.
Qed.

(** At every point of a run, [new_emails] is exactly the set of keys
    that had no positive count in the baseline and have a count of at
    least 1 now: an address already counted before the run is never
    reported as new, and one first counted in this run always is. *)
Theorem new_emails_exactly folder h d l batch_size rs k :
  k ∈ new_emails (fst (scan_junk_mail folder h d l batch_size rs))
  <-> get (deref h l) k <= 0
      /\ 1 <= get (counts l (fst (scan_junk_mail folder h d l batch_size rs))) k.
Proof.
  unfold scan_junk_mail.
  assert (H : new_exactly (deref h l) l (start h d)).
  { split; intros k'; unfold counts; simpl; [lia|].
    split; [intros Hin; now apply not_elem_of_empty in Hin | lia]. }
  revert H. generalize (start h d).
  induction rs as [|r rs IH]; intros st H; simpl; [apply H|].
  pose proof (new_exactly_iteration (deref h l) folder l batch_size r st H)
    as Hr.
  destruct (iteration folder l batch_size r st) as [st' [|]]; simpl in *;
    [now apply IH | apply Hr].
Qed.

(** *** Keys are lowercase *)

Lemma lower_char_idempotent c : lower_char (lower_char c) = lower_char c.
Proof. destruct c as [[] [] [] [] [] [] [] []]; reflexivity. Qed.

Lemma lower_idempotent s : lower (lower s) = lower s.
Proof.
  induction s as [|c s IH]; simpl; [easy|].
  now rewrite lower_char_idempotent, IH.
Qed.

Lemma counted_key_lowercase it k : counted_key it = Some k -> lower k = k.
Proof.
  destruct it as [|[[|c s]|]|]; try discriminate.
  intros [= <-]. apply (lower_idempotent (String c s)).
Qed.

Lemma mixed_case_untouched_iteration folder l batch_size r st k :
  lower k <> k ->
  get (counts l (fst (iteration folder l batch_size r st))) k
  = get (counts l st) k.
Proof.
  intros Hk.
  assert (Hpage : forall items,
             get (counts l (foldl (process_item l) st items)) k
             = get (counts l st) k).
  { intros items. rewrite get_process_items.
    assert (occurrences k items = 0%nat) as ->; [|lia].
    unfold occurrences. induction items as [|it items IH]; [easy|].
    rewrite filter_cons. case_decide as Hit; [|exact IH].
    now apply counted_key_lowercase in Hit. }
  destruct r; unfold iteration.
  - destruct (slice folder (processed st) batch_size) as [|it items];
      [easy|].
    destruct (Nat.eqb _ _); apply (Hpage (it :: items)).
  - now destruct (Nat.ltb _ _).
  - easy.
Qed.

(** The scan only ever counts under lowercase keys: a key holding an
    uppercase letter has, at every point of a run, the count it had in the
    baseline (and senders that differ only in the case of their letters
    are counted under one key). *)
Theorem mixed_case_keys_are_untouched folder h d l batch_size rs k :
  lower k <> k ->
  get (counts l (fst (scan_junk_mail folder h d l batch_size rs))) k
  = get (deref h l) k.
Proof.
  intros Hk. unfold scan_junk_mail.
  change (deref h l) with (counts l (start h d)).
  generalize (start h d). induction rs as [|r rs IH]; intros st; simpl;
    [easy|].
  pose proof (mixed_case_untouched_iteration folder l batch_size r st k Hk)
    as Hr.
  destruct (iteration folder l batch_size r st) as [st' [|]]; simpl in *.
  - now rewrite IH.
  - exact Hr.
Qed.

Lemma mixed_case_keys_are_untouched_witness :
  get (counts caller
         (fst (scan_junk_mail (junk 3) caller_heap first_run caller 100
                 [Page; Page])))
      "News@Shop.example"
  = get (deref caller_heap caller) "News@Shop.example".
Proof.
  apply (mixed_case_keys_are_untouched (junk 3) caller_heap first_run caller
           100 [Page; Page] "News@Shop.example").
  discriminate.
Defined.

(** *** Waiting *)

Lemma slept_app tr tr' : slept (tr ++ tr') = (slept tr + slept tr')%nat.
Proof.
  unfold slept. induction tr as [|[n|cp] tr IH]; simpl; [easy| |easy].
  rewrite IH. lia.
Qed.

(** From a state with no failed attempt pending, the loop has slept 150
    seconds (10 + 20 + 30 + 40 + 50) more by the time six busy answers in
    a row make it give up. *)
Theorem gives_up_after_150_seconds folder l batch_size st :
  retries st = 0%nat ->
  slept (trace (fst (scan_loop folder l batch_size (repeat ServerBusy 6) st)))
  = (slept (trace st) + 150)%nat.
Proof.
  intros H0. rewrite sixth_busy_gives_up by assumption.
  cbn [fst trace save_progress set_retries busy_state].
  rewrite H0, !slept_app. simpl. lia.
Qed.

Lemma gives_up_after_150_seconds_witness :
  slept (trace (fst (scan_loop (junk 3) caller 100 (repeat ServerBusy 6)
                       (start caller_heap first_run))))
  = (slept (trace (start caller_heap first_run)) + 150)%nat.
Proof.
  apply (gives_up_after_150_seconds (junk 3) caller 100
           (start caller_heap first_run)).
  reflexivity.
Defined.

End RunInvariants.

(* ===================================================================== *)
(** ** [main]: what it writes *)
(* ===================================================================== *)

Section ProgramFacts.
Import Engine Spec Fixtures Invariants Program.

Implicit Types (d : files) (folder : list item) (rs : list response).

Lemma counts_fresh_start m d k :
  get (counts fresh (start {[fresh := m]} d)) k = get m k.
Proof. unfold counts, deref. simpl. now rewrite lookup_singleton_eq. Qed.

Lemma new_exactly_scan_loop c0 folder l batch_size rs : forall st,
  new_exactly c0 l st ->
  new_exactly c0 l (fst (scan_loop folder l batch_size rs st)).
Proof.
  induction rs as [|r rs IH]; intros st H; simpl; [exact H|].
  pose proof (new_exactly_iteration c0 folder l batch_size r st H) as Hr.
  destruct (iteration folder l batch_size r st) as [st' [|]]; simpl in *;
    [now apply IH | exact Hr].
Qed.

(** Whenever [main] reaches its last line, after a complete scan or after
    one that gave up or met an error, the results file it has written
    holds every key of the counts it started from, none with a lower
    count.  The addresses new to the run are those whose count was not
    positive before and is at least 1 in the results; when there are none,
    no export is touched; otherwise they are written under the name made
    of the timestamp, in place of whatever export bore that name, and every
    export under another name is kept. *)
Theorem main_exit_keeps_history timestamp d folder rs d' :
  main timestamp d folder rs = Exited d' ->
  exists m m' (new : gset string),
    baseline d = Some m /\ results_file d' = Some m' /\ grows m m'
    /\ (forall k, k ∈ new <-> get m k <= 0 /\ 1 <= get m' k)
    /\ new_emails_files d'
       = (if decide (new = ∅) then new_emails_files d
          else <[timestamp := new]> (new_emails_files d))
    /\ (forall name, name <> timestamp ->
          new_emails_files d' !! name = new_emails_files d !! name).
Proof.
  unfold main. fold (baseline d).
  destruct (baseline d) as [m|]; [|discriminate].
  pose proof (grows_scan_loop folder fresh 100 rs (start {[fresh := m]} d))
    as Hg.
  pose proof (other_files_scan_loop folder fresh 100 rs
                (start {[fresh := m]} d)) as [_ He].
  assert (Hn : new_exactly m fresh (start {[fresh := m]} d)).
  { split; intros k; rewrite counts_fresh_start; [lia|].
    split; [intros Hin; now apply not_elem_of_empty in Hin | lia]. }
  apply (new_exactly_scan_loop m folder fresh 100 rs) in Hn as [_ Hn].
  unfold scan_junk_mail in *.
  destruct (scan_loop folder fresh 100 rs (start {[fresh := m]} d))
    as [st [|]]; [discriminate|].
  intros [= <-]. exists m, (counts fresh st), (new_emails st).
  simpl in He, Hn.
  split; [reflexivity|]. split; [reflexivity|].
  split; [|split; [|split]].
  - unfold counts at 1, deref in Hg. simpl in Hg.
    now rewrite lookup_singleton_eq in Hg.
  - exact Hn.
  - unfold finish. cbn [new_emails_files]. now rewrite He.
  - intros name Hne. unfold finish. cbn [new_emails_files]. rewrite He.
    case_decide; [reflexivity|]. now rewrite lookup_insert_ne.
Qed.

Lemma main_exit_keeps_history_witness :
  exists m m' (new : gset string),
    baseline later_run = Some m
    /\ results_file
         (Files None
            (Some {["old@x.co"%string := 3; "news@shop.example"%string := 100]})
            {["20251231_090000"%string := {["old@x.co"%string]};
              noon := {["news@shop.example"%string]}]}) = Some m'
    /\ grows m m'
    /\ (forall k, k ∈ new <-> get m k <= 0 /\ 1 <= get m' k)
    /\ new_emails_files
         (Files None
            (Some {["old@x.co"%string := 3; "news@shop.example"%string := 100]})
            {["20251231_090000"%string := {["old@x.co"%string]};
              noon := {["news@shop.example"%string]}]})
       = (if decide (new = ∅) then new_emails_files later_run
          else <[noon := new]> (new_emails_files later_run))
    /\ (forall name, name <> noon ->
          new_emails_files
            (Files None
               (Some {["old@x.co"%string := 3;
                       "news@shop.example"%string := 100]})
               {["20251231_090000"%string := {["old@x.co"%string]};
                 noon := {["news@shop.example"%string]}]}) !! name
          = new_emails_files later_run !! name).
Proof.
  apply (main_exit_keeps_history noon later_run (junk 250) [Page; Failure]).
  vm_compute. reflexivity.
Defined.

(** A run that is stopped while it scans has written neither the results
    file nor an export: only the progress file can differ. *)
Theorem stopped_run_leaves_results timestamp d folder rs d' :
  main timestamp d folder rs = Scanning d' ->
  results_file d' = results_file d
  /\ new_emails_files d' = new_emails_files d.
Proof.
  unfold main. destruct (baseline d) as [m|] eqn:Hb; unfold baseline in Hb;
    rewrite Hb; [|discriminate].
  pose proof (other_files_scan_loop folder fresh 100 rs
                (start {[fresh := m]} d)) as H.
  unfold scan_junk_mail.
  destruct (scan_loop folder fresh 100 rs (start {[fresh := m]} d))
    as [st [|]]; [|discriminate].
  intros [= <-]. exact H.
Qed.

Lemma stopped_run_leaves_results_witness :
  results_file
    (Files (Some (Checkpoint {["news@shop.example"%string := 200]} 200))
       (Some ∅) ∅)
  = results_file first_run
  /\ new_emails_files
       (Files (Some (Checkpoint {["news@shop.example"%string := 200]} 200))
          (Some ∅) ∅)
     = new_emails_files first_run.
Proof.
  apply (stopped_run_leaves_results noon first_run (junk 200) [Page; Page]).
  vm_compute. reflexivity.
Defined.

(** A complete run of [main], from whichever file gives the baseline [m]:
    it ends with no progress file and with results that are [m] with each
    item of the folder counted once more. *)
Lemma main_complete_run timestamp d m folder n :
  baseline d = Some m ->
  no_raising folder -> (length folder <= n * 100)%nat ->
  exists d' m',
    main timestamp d folder (repeat Page (S n)) = Exited d'
    /\ progress_file d' = None
    /\ results_file d' = Some m'
    /\ (forall k, get m' k = get m k + Z.of_nat (occurrences k folder)).
Proof.
  intros Hb Hok Hn. unfold main. fold (baseline d). rewrite Hb.
  unfold scan_junk_mail.
  destruct (pages_run folder fresh 100 ltac:(lia) Hok n
              (start {[fresh := m]} d))
    as (st & Hrun & _ & Hc); [simpl; lia | simpl; lia |].
  rewrite Hrun. eexists _, _. repeat split.
  intros k. rewrite Hc. cbn [processed start]. now rewrite counts_fresh_start.
Qed.

(** Counts add up over runs: two complete runs of [main], one after the
    other, leave as results the first baseline with the items of both
    folders counted; in particular a second run over an unchanged junk
    folder counts every message of it a second time. *)
Theorem complete_runs_accumulate
    timestamp timestamp' d m folder folder' n n' :
  baseline d = Some m ->
  no_raising folder -> (length folder <= n * 100)%nat ->
  no_raising folder' -> (length folder' <= n' * 100)%nat ->
  exists d1 d2 m2,
    main timestamp d folder (repeat Page (S n)) = Exited d1
    /\ main timestamp' d1 folder' (repeat Page (S n')) = Exited d2
    /\ results_file d2 = Some m2
    /\ (forall k, get m2 k
                  = get m k + Z.of_nat (occurrences k folder)
                    + Z.of_nat (occurrences k folder')).
Proof.
  intros Hb Hok Hn Hok' Hn'.
  destruct (main_complete_run timestamp d m folder n Hb Hok Hn)
    as (d1 & m1 & Hrun1 & Hp1 & Hr1 & Hc1).
  assert (Hb1 : baseline d1 = Some m1) by (unfold baseline; now rewrite Hp1).
  destruct (main_complete_run timestamp' d1 m1 folder' n' Hb1 Hok' Hn')
    as (d2 & m2 & Hrun2 & _ & Hr2 & Hc2).
  exists d1, d2, m2. repeat split; try assumption.
  intros k. now rewrite Hc2, Hc1.
Qed.

Lemma complete_runs_accumulate_witness :
  exists d1 d2 m2,
    main noon first_run (junk 150) (repeat Page 3) = Exited d1
    /\ main evening d1 (junk 150) (repeat Page 3) = Exited d2
    /\ results_file d2 = Some m2
    /\ (forall k, get m2 k
                  = get ∅ k + Z.of_nat (occurrences k (junk 150))
                    + Z.of_nat (occurrences k (junk 150))).
Proof.
  assert (Hok : no_raising (junk 150)).
  { apply List.Forall_forall. intros it Hin.
    apply repeat_spec in Hin. subst it. discriminate. }
  apply (complete_runs_accumulate noon evening first_run ∅ (junk 150)
           (junk 150) 2 2).
  - reflexivity.
  - exact Hok.
  - unfold junk. rewrite repeat_length. lia.
  - exact Hok.
  - unfold junk. rewrite repeat_length. lia.
Defined.

End ProgramFacts.

(* ===================================================================== *)
(** ** The extractor: where its results come from *)
(* ===================================================================== *)

Section ExtractorOrder.
Import Extractor Spec Invariants.

Implicit Types (p : list piece) (s m : list ascii) (prev : option ascii).

Lemma match_rep_prefix cls k :
  (forall prev s m, k prev s = Some m -> exists rest, s = (m ++ rest)%list) ->
  forall s least prev m,
    match_rep cls least k prev s = Some m ->
    exists rest, s = (m ++ rest)%list.
Proof.
  intros Hk. induction s as [|x s IH]; intros least prev m H; simpl in H.
  - destruct least; [eauto | discriminate].
  - assert (Hstop : match least with O => k prev (x :: s) | S _ => None end
                    = Some m -> exists rest, x :: s = (m ++ rest)%list)
      by (destruct least; [eauto | discriminate]).
    destruct (cls x); [|auto].
    destruct (match_rep cls (Nat.pred least) k (Some x) s) as [m'|] eqn:Hm;
      [|auto].
    injection H as <-. destruct (IH _ _ _ Hm) as [rest ->].
    now exists rest.
Qed.

(** A match starts where the matching starts. *)
Lemma match_here_prefix p : forall prev s m,
  match_here p prev s = Some m -> exists rest, s = (m ++ rest)%list.
Proof.
  induction p as [|[|c|cls least] p IH]; intros prev s m H; simpl in H.
  - injection H as <-. now exists s.
  - destruct (at_boundary prev s); [eauto | discriminate].
  - destruct s as [|x s]; [discriminate|].
    destruct (Ascii.eqb x c); [|discriminate].
    destruct (match_here p (Some x) s) as [b|] eqn:Hb; [|discriminate].
    injection H as <-. destruct (IH _ _ _ Hb) as [rest ->].
    now exists rest.
  - eapply match_rep_prefix; eauto.
Qed.

Lemma in_order_cons ms x s : in_order ms s -> in_order ms (x :: s).
Proof.
  destruct ms as [|m ms]; [easy|].
  intros (gap & rest & -> & H). now exists (x :: gap), rest.
Qed.

Lemma in_order_drop ms n s : in_order ms (drop n s) -> in_order ms s.
Proof.
  revert s. induction n as [|n IH]; intros [|x s]; simpl; try easy.
  intros H. now apply in_order_cons, IH.
Qed.

Lemma scan_in_order p s : forall prev skip,
  in_order (scan p prev s skip) (drop skip s).
Proof.
  induction s as [|c s IH]; intros prev skip; [now destruct skip|].
  cbn [scan]. destruct skip as [|n]; [|apply IH].
  destruct (match_here p prev (c :: s)) as [m|] eqn:Hm.
  - destruct (match_here_prefix _ _ _ _ Hm) as [rest Hrest].
    exists [], rest. split; [exact Hrest|].
    specialize (IH (Some c) (Nat.pred (length m))).
    destruct m as [|x m]; simpl in *.
    + subst rest. now apply in_order_cons.
    + injection Hrest as _ ->.
      now rewrite drop_app_length in IH.
  - apply in_order_cons, (IH (Some c) 0%nat).
Qed.

Lemma extract_results_in_order (text : option string) :
  in_order (map list_ascii_of_string (extract_email_addresses text))
           (chars text).
Proof.
  destruct text as [[|c t]|]; simpl; try easy.
  unfold findall. rewrite map_map.
  rewrite (map_ext _ (fun m => m))
    by (intros; apply list_ascii_of_string_of_list_ascii).
  rewrite map_id.
  apply (scan_in_order email_pattern (c :: list_ascii_of_string t) None 0).
Qed.

(** The addresses returned are pieces of the text: they occur in it in
    the order in which they are returned, one after the other, without
    overlap. *)
Theorem extract_in_order (text : option string) :
  in_order (map list_ascii_of_string (extract_email_addresses text))
           (chars text).
Proof. apply extract_results_in_order. Qed.

Lemma in_order_infix ms s m :
  in_order ms s -> In m ms -> exists a b : list ascii, s = (a ++ m ++ b)%list.
Proof.
  revert s. induction ms as [|m' ms IH]; intros s H Hin; [easy|].
  destruct H as (gap & rest & -> & H). destruct Hin as [->|Hin].
  - now exists gap, rest.
  - destruct (IH _ H Hin) as (a & b & ->).
    exists (gap ++ m' ++ a)%list, b. now rewrite <- !app_assoc.
Qed.

Lemma extract_result_shaped (text : option string) (m : string) :
  In m (extract_email_addresses text) -> shaped tld_class m.
Proof.
  destruct text as [[|c t]|]; simpl; try easy.
  unfold findall. rewrite in_map_iff. intros (m' & <- & H).
  apply scan_matches in H as (prev & s & H).
  eapply match_email_shape; eauto.
Qed.

(** A text without an [@] yields no address. *)
Theorem extract_needs_at (text : option string) :
  ~ In "@"%char (chars text) -> extract_email_addresses text = [].
Proof.
  intros Hno.
  destruct (extract_email_addresses text) as [|m ms] eqn:E; [reflexivity|].
  exfalso. apply Hno.
  assert (Hin : In m (extract_email_addresses text)) by (rewrite E; now left).
  destruct (extract_result_shaped text m Hin) as (l & d & t & Hm & _).
  pose proof (extract_results_in_order text) as Ho. rewrite E in Ho.
  destruct (in_order_infix _ _ (list_ascii_of_string m) Ho (or_introl eq_refl))
    as (a & b & ->).
  rewrite Hm. rewrite !in_app_iff. right. left. right. now left.
Qed.

Lemma extract_needs_at_witness :
  extract_email_addresses (Some "no address here"%string) = [].
Proof.
  apply (extract_needs_at (Some "no address here"%string)).
  simpl. intuition discriminate.
Defined.

End ExtractorOrder.

(* ===================================================================== *)
(** ** The extractor: what it finds *)
(* ===================================================================== *)

Section ExtractorComplete.
Import Extractor Spec Invariants.

Implicit Types (s m a c rest : list ascii) (prev : option ascii).

Lemma last_or_cons prev y a : last_or prev (y :: a) = last_or (Some y) a.
Proof.
  unfold last_or. destruct a as [|z a]; [reflexivity|].
  change (last (y :: z :: a)) with (last (z :: a)).
  destruct (last (z :: a)) eqn:E; [reflexivity|].
  now apply last_None in E.
Qed.

(** A repetition takes the whole run of its class when what follows the
    run matches the rest of the pattern. *)
Lemma match_rep_longest cls k : forall a least prev rest b,
  forallb cls a = true -> (least <= length a)%nat ->
  (forall x rest', rest = x :: rest' -> cls x = false) ->
  k (last_or prev a) rest = Some b ->
  match_rep cls least k prev (a ++ rest) = Some (a ++ b).
Proof.
  induction a as [|y a IH]; intros least prev rest b Ha Hl Hend Hk.
  - simpl in Hl. assert (least = 0%nat) as -> by lia.
    change (last_or prev []) with prev in Hk.
    destruct rest as [|x rest']; simpl; [exact Hk|].
    now rewrite (Hend x rest' eq_refl).
  - simpl in Ha. apply andb_true_iff in Ha as [Hy Ha].
    rewrite last_or_cons in Hk.
    change ((y :: a) ++ rest) with (y :: (a ++ rest)).
    cbn [match_rep]. rewrite Hy.
    rewrite (IH (Nat.pred least) (Some y) rest b); auto.
    simpl in Hl. lia.
Qed.

(** No way to take characters of a run leads to a match when the rest of
    the pattern fails behind each of them. *)
Lemma match_rep_fail cls k : forall c least prev rest,
  forallb cls c = true ->
  (forall x rest', rest = x :: rest' -> cls x = false) ->
  (forall c1 c2 p, c = c1 ++ c2 -> c1 <> [] -> k p (c2 ++ rest) = None) ->
  match_rep cls least k prev (c ++ rest)
  = match least with O => k prev (c ++ rest) | S _ => None end.
Proof.
  induction c as [|y c IH]; intros least prev rest Hc Hend Hfail.
  - destruct rest as [|x rest']; simpl; [easy|].
    now rewrite (Hend x rest' eq_refl).
  - simpl in Hc. apply andb_true_iff in Hc as [Hy Hc].
    change ((y :: c) ++ rest) with (y :: (c ++ rest)).
    cbn [match_rep]. rewrite Hy.
    rewrite (IH (Nat.pred least) (Some y) rest); auto.
    + assert (Hy1 : k (Some y) (c ++ rest) = None)
        by (apply (Hfail [y] c); [easy | discriminate]).
      destruct (Nat.pred least); [now rewrite Hy1 | reflexivity].
    + intros c1 c2 p -> Hne. apply (Hfail (y :: c1) c2); [easy | discriminate].
Qed.

(** Backtracking: a repetition gives back the characters [c] it took too
    many when the rest of the pattern matches only in front of them. *)
Lemma match_rep_backtrack cls k : forall a least prev c rest b,
  forallb cls a = true -> (least <= length a)%nat ->
  forallb cls c = true ->
  (forall x rest', rest = x :: rest' -> cls x = false) ->
  (forall c1 c2 p, c = c1 ++ c2 -> c1 <> [] -> k p (c2 ++ rest) = None) ->
  (forall p, k p (c ++ rest) = Some b) ->
  match_rep cls least k prev (a ++ c ++ rest) = Some (a ++ b).
Proof.
  induction a as [|y a IH]; intros least prev c rest b Ha Hl Hc Hend Hfail Hk.
  - simpl in Hl. assert (least = 0%nat) as -> by lia.
    simpl. rewrite match_rep_fail by assumption. apply Hk.
  - simpl in Ha. apply andb_true_iff in Ha as [Hy Ha].
    change ((y :: a) ++ c ++ rest) with (y :: (a ++ c ++ rest)).
    cbn [match_rep]. rewrite Hy.
    rewrite (IH (Nat.pred least) (Some y) c rest b); auto.
    simpl in Hl. lia.
Qed.

Lemma forallb_weaken (P Q : ascii -> bool) a :
  (forall x, P x = true -> Q x = true) ->
  forallb P a = true -> forallb Q a = true.
Proof.
  intros H. rewrite !forallb_forall. auto.
Qed.

Lemma alpha_is_word x : is_alpha x = true -> is_word x = true.
Proof. unfold is_word. now intros ->. Qed.

Lemma alpha_in_domain x : is_alpha x = true -> domain_class x = true.
Proof. unfold domain_class. now intros ->. Qed.

Lemma alpha_in_tld x : is_alpha x = true -> tld_class x = true.
Proof.
  unfold is_alpha, tld_class.
  destruct (is_upper x), (is_lower x), (one_of "|" x); simpl; congruence.
Qed.

Lemma alpha_is_no_dot x : is_alpha x = true -> Ascii.eqb x "."%char = false.
Proof.
  intros H. destruct (Ascii.eqb_spec x "."%char) as [->|]; [|reflexivity].
  vm_compute in H. discriminate.
Qed.

Lemma last_or_word prev t :
  (1 <= length t)%nat -> forallb is_alpha t = true ->
  word_at (last_or prev t) = true.
Proof.
  intros Hlen Ht. unfold last_or.
  destruct (last t) as [z|] eqn:E.
  - simpl. apply alpha_is_word.
    rewrite forallb_forall in Ht. apply Ht.
    apply last_Some in E as [t' ->]. apply in_app_iff. right. now left.
  - apply last_None in E. subst t. simpl in Hlen. lia.
Qed.

(** The pattern matches the whole of a text made of a local part that
    starts with a word character, [@], a domain, a dot and an alphabetic
    final label. *)
Lemma match_email_whole (l d t : list ascii) :
  word_at (head l) = true ->
  (1 <= length l)%nat -> forallb local_class l = true ->
  (1 <= length d)%nat -> forallb domain_class d = true ->
  (2 <= length t)%nat -> forallb is_alpha t = true ->
  match_here email_pattern None (l ++ "@"%char :: d ++ "."%char :: t)
  = Some (l ++ "@"%char :: d ++ "."%char :: t).
Proof.
  intros Hw Hl Hlc Hd Hdc Ht Hta. unfold email_pattern.
  cbn [match_here].
  assert (Hb : at_boundary None (l ++ "@"%char :: d ++ "."%char :: t) = true).
  { destruct l as [|x l]; [simpl in Hl; lia|]. exact Hw. }
  rewrite Hb.
  apply match_rep_longest; try assumption.
  { intros x rest' [= <- _]. reflexivity. }
  cbn [match_here]. change (Ascii.eqb "@" "@") with true. cbn [option_map].
  f_equal. f_equal.
  rewrite <- (app_nil_r ("."%char :: t)) at 1.
  rewrite (match_rep_backtrack domain_class _ d 1 (Some "@"%char)
             ("."%char :: t) [] ("."%char :: t)); try assumption.
  - reflexivity.
  - cbn [forallb]. rewrite (forallb_weaken _ _ t alpha_in_domain Hta).
    reflexivity.
  - intros x rest' [=].
  - intros [|y c1] c2 p E Hne; [congruence|].
    injection E as _ ->. rewrite app_nil_r.
    destruct c2 as [|z c2]; [reflexivity|]. cbn [match_here].
    rewrite alpha_is_no_dot; [reflexivity|].
    rewrite forallb_forall in Hta. apply Hta.
    apply in_app_iff. right. now left.
  - intros p. cbn [app match_here].
    change (Ascii.eqb "." ".") with true. cbv iota.
    rewrite (match_rep_longest tld_class _ t 2 (Some "."%char) [] []).
    + cbn [option_map]. now rewrite app_nil_r.
    + now apply (forallb_weaken _ _ t alpha_in_tld).
    + exact Ht.
    + intros x rest' [=].
    + cbn [match_here]. unfold at_boundary. simpl head.
      rewrite last_or_word by (assumption || lia). reflexivity.
Qed.

Lemma scan_skip_all p : forall s prev skip,
  (length s <= skip)%nat -> scan p prev s skip = [].
Proof.
  induction s as [|x s IH]; intros prev skip H; [reflexivity|].
  destruct skip as [|n]; simpl in *; [lia|]. apply IH. lia.
Qed.

Lemma scan_whole p s :
  s <> [] -> match_here p None s = Some s -> scan p None s 0 = [s].
Proof.
  intros Hne H. destruct s as [|x s]; [congruence|].
  cbn [scan]. rewrite H. f_equal. now apply scan_skip_all.
Qed.

(** A text that is an address of the shape of section 4.1 of the
    specification (alphabetic final label) and starts with a letter, a
    digit or an underscore is returned, whole and alone. *)
Theorem extract_standalone_address (text : string) :
  address_shaped text ->
  word_at (head (chars (Some text))) = true ->
  extract_email_addresses (Some text) = [text].
Proof.
  intros (l & d & t & E & Hl & Hlc & Hd & Hdc & Ht & Hta) Hw.
  cbn [chars] in Hw. rewrite E in Hw.
  assert (Hw' : word_at (head l) = true)
    by (destruct l; [simpl in Hl; lia | exact Hw]).
  destruct text as [|c0 t0].
  - destruct l; discriminate.
  - cbn [extract_email_addresses]. unfold findall. rewrite E.
    rewrite scan_whole.
    + cbn [map]. now rewrite <- E, string_of_list_ascii_of_string.
    + now destruct l.
    + now apply match_email_whole.
Qed.

Lemma extract_standalone_address_witness :
  extract_email_addresses (Some "joe.doe@mail.example.org"%string)
  = ["joe.doe@mail.example.org"%string].
Proof.
  apply extract_standalone_address.
  - exists (list_ascii_of_string "joe.doe"), (list_ascii_of_string "mail.example"),
      (list_ascii_of_string "org").
    repeat split; simpl; lia.
  - reflexivity.
Defined.

End ExtractorComplete.

(* ===================================================================== *)
(** ** The report and the export *)
(* ===================================================================== *)

Section SortFacts.
Import Report.

Context {A : Type} (le : A -> A -> bool).

Lemma insert_by_perm x l : Permutation (insert_by le x l) (x :: l).
Proof.
  induction l as [|y l IH]; simpl; [reflexivity|].
  destruct (le x y); [reflexivity|].
  rewrite IH. apply perm_swap.
Qed.

Lemma sort_by_perm l : Permutation (sort_by le l) l.
Proof.
  induction l as [|x l IH]; simpl; [reflexivity|].
  now rewrite insert_by_perm, IH.
Qed.

Hypothesis le_total : forall a b, le a b = true \/ le b a = true.

Lemma insert_by_sorted x l :
  Sorted (fun a b => le a b = true) l ->
  Sorted (fun a b => le a b = true) (insert_by le x l).
Proof.
  induction l as [|y l IH]; intros Hs; simpl.
  - repeat constructor.
  - destruct (le x y) eqn:E.
    + constructor; [assumption | now constructor].
    + inversion Hs as [|? ? Hs' Hhd]; subst.
      constructor; [now apply IH|].
      destruct l as [|z l]; simpl.
      * constructor. destruct (le_total x y); congruence.
      * destruct (le x z).
        -- constructor. destruct (le_total x y); congruence.
        -- constructor. now inversion Hhd.
Qed.

Lemma sort_by_sorted l : Sorted (fun a b => le a b = true) (sort_by le l).
Proof.
  induction l as [|x l IH]; simpl; [constructor|].
  now apply insert_by_sorted.
Qed.

End SortFacts.

Section ReportFacts.
Import Report.

Lemma more_frequent_total a b :
  more_frequent a b = true \/ more_frequent b a = true.
Proof. unfold more_frequent. rewrite !Z.leb_le. lia. Qed.

Lemma insert_keeps_ties (x : string * Z) (n : Z) l :
  filter (fun a => snd a = n) (insert_by more_frequent x l)
  = filter (fun a => snd a = n) (x :: l).
Proof.
  induction l as [|y l IH]; [reflexivity|].
  cbn [insert_by]. destruct (more_frequent x y) eqn:E; [reflexivity|].
  unfold more_frequent in E. apply Z.leb_gt in E.
  rewrite (filter_cons _ y), IH, !filter_cons.
  repeat case_decide; try reflexivity; lia.
Qed.

(** The report lists the items of [email_count], each once, the most
    frequent first, and addresses of equal count in the order in which the
    dictionary holds them. *)
Theorem report_is_by_frequency (items : list (string * Z)) :
  Permutation (sorted_emails items) items
  /\ Sorted (fun a b => snd b <= snd a) (sorted_emails items)
  /\ (forall n, filter (fun a => snd a = n) (sorted_emails items)
                = filter (fun a => snd a = n) items).
Proof.
  unfold sorted_emails. split; [apply sort_by_perm|]. split.
  - pose proof (sort_by_sorted more_frequent more_frequent_total items) as H.
    induction H as [|a l Hs IH Hhd]; constructor; [assumption|].
    destruct Hhd as [|b l' Hab]; constructor.
    now apply Z.leb_le in Hab.
  - intros n. induction items as [|x items IH]; [reflexivity|].
    cbn [sort_by]. now rewrite insert_keeps_ties, !filter_cons, IH.
Qed.

(** The export of new addresses lists exactly the addresses of
    [new_emails], each once, in increasing order. *)
Theorem export_is_sorted_set (new_emails : gset string) :
  (forall k, In k (export_content new_emails) <-> k ∈ new_emails)
  /\ List.NoDup (export_content new_emails)
  /\ Sorted (fun a b => String.leb a b = true) (export_content new_emails).
Proof.
  unfold export_content.
  pose proof (sort_by_perm String.leb (elements new_emails)) as Hp.
  split; [|split].
  - intros k. rewrite <- elem_of_elements, <- list_elem_of_In.
    now rewrite Hp.
  - apply NoDup_ListNoDup. rewrite Hp. apply NoDup_elements.
  - apply sort_by_sorted. apply String.leb_total.
Qed.

End ReportFacts.

(* ===================================================================== *)
(** ** Calls that share a mapping *)
(* ===================================================================== *)

Section SharedMapping.
Import Engine Spec Fixtures.

(** Two calls of [scan_junk_mail] on the same mapping (as are all calls
    that omit [email_count]: the default [defaultdict] of line 29 is built
    once, when the function is defined): the second call starts from the
    counts the first one left and ends with the items of both folders
    counted on top of the first baseline. *)
Theorem calls_on_one_mapping_accumulate
    folder folder' h d l batch_size batch_size' n n' :
  (0 < batch_size)%nat -> (0 < batch_size')%nat ->
  no_raising folder -> (length folder <= n * batch_size)%nat ->
  no_raising folder' -> (length folder' <= n' * batch_size')%nat ->
  exists st1 st2,
    scan_junk_mail folder h d l batch_size (repeat Page (S n))
    = (st1, Returned)
    /\ scan_junk_mail folder' (heap st1) (disk st1) l batch_size'
         (repeat Page (S n')) = (st2, Returned)
    /\ (forall k, get (counts l st2) k
                  = get (deref h l) k + Z.of_nat (occurrences k folder)
                    + Z.of_nat (occurrences k folder')).
Proof.
  intros Hb Hb' Hok Hn Hok' Hn'. unfold scan_junk_mail.
  destruct (pages_run folder l batch_size Hb Hok n (start h d))
    as (st1 & Hrun1 & _ & Hc1); [simpl; lia | simpl; lia |].
  destruct (pages_run folder' l batch_size' Hb' Hok' n'
              (start (heap st1) (disk st1)))
    as (st2 & Hrun2 & _ & Hc2); [simpl; lia | simpl; lia |].
  exists st1, st2. repeat split; try assumption.
  intros k. rewrite Hc2. cbn [processed start drop].
  change (counts l (start (heap st1) (disk st1))) with (counts l st1).
  now rewrite Hc1.
Qed.

Lemma calls_on_one_mapping_accumulate_witness :
  exists st1 st2,
    scan_junk_mail (junk 3) caller_heap first_run caller 2 (repeat Page 3)
    = (st1, Returned)
    /\ scan_junk_mail (junk 5) (heap st1) (disk st1) caller 5
         (repeat Page 2) = (st2, Returned)
    /\ (forall k, get (counts caller st2) k
                  = get (deref caller_heap caller) k
                    + Z.of_nat (occurrences k (junk 3))
                    + Z.of_nat (occurrences k (junk 5))).
Proof.
  assert (Hok : forall n, no_raising (junk n)).
  { intros n. apply List.Forall_forall. intros it Hin.
    apply repeat_spec in Hin. subst it. discriminate. }
  apply (calls_on_one_mapping_accumulate (junk 3) (junk 5) caller_heap
           first_run caller 2 5 2 1); try apply Hok; try lia.
  - unfold junk. rewrite repeat_length. lia.
  - unfold junk. rewrite repeat_length. lia.
Defined.

End SharedMapping.

(* ===================================================================== *)
(** ** Where a complete run writes its checkpoints *)
(* ===================================================================== *)

Section CheckpointCadence.
Import Engine Spec Fixtures.

Implicit Types (st : state) (l : loc) (folder : list item).
Implicit Types (b p j : nat).

Lemma filter_none {A} (P : A -> Prop) `{forall x, Decision (P x)} (xs : list A) :
  Forall (fun x => ~ P x) xs -> filter P xs = [].
Proof.
  induction 1 as [|x xs Hx _ IH]; [reflexivity|].
  rewrite filter_cons. now rewrite decide_False.
Qed.

(** Strictly between two consecutive multiples of [b] there is no
    multiple of [b * 2]. *)
Lemma no_multiple_inside b j q :
  (j * b < q < S j * b)%nat -> Nat.modulo q (b * 2) <> 0%nat.
Proof.
  intros Hq Hm.
  assert (Hb : (0 < b)%nat) by (destruct b; lia).
  apply Nat.Div0.mod_divides in Hm as [c Hc]. subst q.
  assert (j < 2 * c)%nat by nia.
  assert (2 * c < S j)%nat by nia.
  lia.
Qed.

(** The multiples of [b * 2] among the cursors [p + 1 .. p + m] of a page
    that starts at a multiple of [b]: the last one, or none. *)
Lemma multiples_in_page b j m :
  (0 < m <= b)%nat ->
  filter (fun c => Nat.modulo c (b * 2) = 0%nat) (seq (S (j * b)) m)
  = if Nat.eqb (Nat.modulo (j * b + m) (b * 2)) 0 then [(j * b + m)%nat]
    else [].
Proof.
  intros Hm. destruct m as [|m]; [lia|].
  rewrite seq_S.
  replace (S (j * b) + m)%nat with (j * b + S m)%nat by lia.
  rewrite filter_app, filter_none.
  - cbn [app]. rewrite filter_cons, filter_nil.
    destruct (Nat.eqb_spec (Nat.modulo (j * b + S m) (b * 2)) 0) as [E|E].
    + now rewrite decide_True.
    + now rewrite decide_False.
  - apply List.Forall_forall. intros q Hq. apply in_seq in Hq.
    apply (no_multiple_inside b j). lia.
Qed.

Lemma at_end_returns folder l b rs st :
  processed st = length folder ->
  scan_loop folder l b (Page :: rs) st = (st, Returned).
Proof.
  intros Hp. cbn [scan_loop]. unfold iteration, slice.
  now rewrite Hp, drop_all, take_nil.
Qed.

Lemma cadence_run folder l b :
  (0 < b)%nat -> no_raising folder ->
  forall n j st,
    processed st = (j * b)%nat -> (j * b <= length folder)%nat ->
    (length folder - j * b <= n * b)%nat ->
    map cp_processed (saves (trace st))
    = filter (fun c => Nat.modulo c (b * 2) = 0%nat) (seq 1 (j * b)) ->
    map cp_processed
      (saves (trace (fst (scan_loop folder l b (repeat Page (S n)) st))))
    = filter (fun c => Nat.modulo c (b * 2) = 0%nat) (seq 1 (length folder)).
Proof.
  intros Hb Hok. induction n as [|n IH]; intros j st Hp Hle Hrem Hs.
  - assert (E : (j * b)%nat = length folder) by lia.
    change (repeat Page 1) with [Page].
    rewrite at_end_returns by lia. simpl fst. now rewrite <- E.
  - destruct (decide ((j * b)%nat = length folder)) as [E|E].
    + change (repeat Page (S (S n))) with (Page :: repeat Page (S n)).
      rewrite at_end_returns by lia. simpl fst. now rewrite <- E.
    + set (items := slice folder (processed st) b).
      assert (Hlen : length items = Nat.min b (length folder - j * b))
        by (unfold items; now rewrite length_slice, Hp).
      assert (Hne : items <> [])
        by (intros X; rewrite X in Hlen; simpl in Hlen; lia).
      assert (Hoki : no_raising items) by now apply Forall_take, Forall_drop.
      destruct (page_step folder l b st items eq_refl Hne Hoki)
        as (st1 & I1 & P1 & _ & _ & S1).
      change (repeat Page (S (S n))) with (Page :: repeat Page (S n)).
      cbn [scan_loop]. rewrite I1.
      assert (Hs1 : map cp_processed (saves (trace st1))
                    = filter (fun c => Nat.modulo c (b * 2) = 0%nat)
                        (seq 1 (processed st1))).
      { rewrite S1, map_app, Hs, P1, Hp, seq_app, filter_app. f_equal.
        change (1 + j * b)%nat with (S (j * b)).
        rewrite multiples_in_page by lia.
        match goal with
        | |- context [Nat.eqb ?x 0] => destruct (Nat.eqb x 0)
        end; reflexivity. }
      destruct (Nat.le_gt_cases b (length folder - j * b)) as [Hfull|Hpart].
      * rewrite Nat.min_l in Hlen by assumption.
        apply (IH (S j) st1); try lia.
        replace (S j * b)%nat with (processed st1) by lia. exact Hs1.
      * rewrite Nat.min_r in Hlen by lia.
        assert (Hend : processed st1 = length folder) by lia.
        change (repeat Page (S n)) with (Page :: repeat Page n).
        rewrite at_end_returns by assumption. simpl fst.
        now rewrite <- Hend.
Qed.

(** A run over a folder none of whose items raises, with every request
    answered, writes its checkpoints at exactly the cursors that are
    positive multiples of [2 * batch_size] within the folder, each once
    and in increasing order: one checkpoint for every second full page,
    none for a last, shorter page. *)
Theorem answered_run_checkpoints folder h d l batch_size n :
  (0 < batch_size)%nat -> no_raising folder ->
  (length folder <= n * batch_size)%nat ->
  map cp_processed
    (saves (trace (fst (scan_junk_mail folder h d l batch_size
                          (repeat Page (S n))))))
  = filter (fun c => Nat.modulo c (batch_size * 2) = 0%nat)
      (seq 1 (length folder)).
Proof.
  intros Hb Hok Hn. unfold scan_junk_mail.
  apply (cadence_run folder l batch_size Hb Hok n 0 (start h d));
    simpl; try lia. reflexivity.
Qed.

Lemma answered_run_checkpoints_witness :
  map cp_processed
    (saves (trace (fst (scan_junk_mail (junk 450) caller_heap first_run
                          caller 100 (repeat Page 6)))))
  = filter (fun c => Nat.modulo c (100 * 2) = 0%nat) (seq 1 (length (junk 450))).
Proof.
  apply (answered_run_checkpoints (junk 450) caller_heap first_run caller
           100 5).
  - lia.
  - apply List.Forall_forall. intros it Hin.
    apply repeat_spec in Hin. subst it. discriminate.
  - unfold junk. rewrite repeat_length. lia.
Defined.

Example checkpoints_of_450 :
  filter (fun c => Nat.modulo c (100 * 2) = 0%nat) (seq 1 450)
  = [200; 400]%nat.
Proof. vm_compute. reflexivity. Qed.

End CheckpointCadence.
